(** * SecureEpilinker: link configuration, precision planner and engine facade

    A shallow embedding of [include/epilink_input.cpp] and of the engine
    facade and threshold stage of [include/secure_epilinker.cpp].

    Conventions.
    - [size_t] is the 64-bit unsigned type of an LP64 platform: a value is
      an integer in [0, 2^64) and every operator wraps modulo 2^64.
    - [Weight] and the thresholds are C++ [double]s.  A finite double is a
      rational number; the operations embedded here (comparison, scaling
      by a power of two, truncation to an integer) are exact on doubles,
      so they are modelled on [Q].  The inexact double arithmetic of
      [rescale_weight] is embedded on the binary64 numbers of the
      Standard Library ([SpecFloat]); [field_weight] takes it as a
      parameter.
    - exceptions, failed assertions and undefined behaviour are values of
      the type [Error]; a throwing function returns [Err].  Assertions are
      compiled in (NDEBUG is not defined).
    - a [std::map] is a [gmap]; the two loops over the field map compute
      maxima, for which the order of traversal is immaterial. *)

From Stdlib Require Import ZArith QArith Qround Qpower Lia.
From Stdlib Require Import Floats.SpecFloat.
From stdpp Require Import base gmap strings list fin_maps sorting.

Set Warnings "-clear-no-such-hyp".
Local Open Scope Z_scope.

(** ** Errors *)

Inductive InvalidArgumentKind : Type :=
  | GroupsNotDistinct     (* "Exchange groups must be distinct!" *)
  | ComparatorMismatch    (* "Cannot compare field ... of type ..." *)
  | BitsizeMismatch       (* "Cannot compare field ... of bitsize ..." *)
  | PrecisionOverflow.    (* "... would potentially cause overflows ..." *)

Inductive Error : Type :=
  | InvalidArgument (k : InvalidArgumentKind)  (* std::invalid_argument *)
  | OutOfRange                                 (* std::out_of_range of map::at *)
  | RuntimeError                               (* std::runtime_error *)
  | AssertionFailed                            (* assert(...) *)
  | UndefinedBehaviour.                        (* dereferencing end(), bad shift or conversion *)

Inductive Result (A : Type) : Type :=
  | Ok (a : A)
  | Err (e : Error).
Arguments Ok {A} a.
Arguments Err {A} e.

Definition is_Ok {A} (r : Result A) : bool :=
  match r with Ok _ => true | Err _ => false end.

(** ** size_t arithmetic *)

Definition size_t_bits : Z := 64.
Definition size_t_mod : Z := 2 ^ size_t_bits.

Definition wrap (z : Z) : Z := z mod size_t_mod.

Definition sz_add (a b : Z) : Z := wrap (a + b).
Definition sz_sub (a b : Z) : Z := wrap (a - b).
Definition sz_mul (a b : Z) : Z := wrap (a * b).
Definition sz_div (a b : Z) : Z := a / b.
Definition sz_rem (a b : Z) : Z := a mod b.

Definition is_size_t (z : Z) : Prop := 0 <= z < size_t_mod.

(** ** Numeric primitives of math.h *)

(** Modelled from the spec: [ceil_log2] of math.h (the header is not
    available).  "ceil_log2(n) returns the smallest k with 2^k >= n"; it
    is 0 for n <= 1. *)
Definition ceil_log2 (n : Z) : Z := Z.log2_up n.

(** Modelled from the spec: [ceil_log2_min1] of math.h (the header is not
    available), the variant that "by convention returns 1 for n <= 1". *)
Definition ceil_log2_min1 (n : Z) : Z :=
  if 1 <? n then ceil_log2 n else 1.

(** [hw_size], epilink_input.cpp:172 *)
Definition hw_size (size : Z) : Z := ceil_log2_min1 (sz_add size 1).

(** The spec's words for the same quantity, "hw_bits(width) =
    ceil_log2(width + 1)" with the convention of [ceil_log2_min1], on
    unbounded integers; [hw_size] is compared with it below. *)
Definition hw_bits (width : Z) : Z := ceil_log2_min1 (width + 1).

(** ** Field descriptors and the link configuration *)

Inductive FieldComparator : Type := DICE | BINARY.

#[global] Instance FieldComparator_eq_dec : EqDecision FieldComparator.
Proof. solve_decision. Defined.

Abbreviation FieldName := string (only parsing).
Abbreviation Weight := Q (only parsing).

Record ML_Field : Type := mkField {
  name : FieldName;
  weight : Weight;
  comparator : FieldComparator;
  bitsize : Z
}.

(** [IndexSet] is a [std::set<FieldName>]; it is represented by the list
    of its elements in iteration order. *)
Abbreviation IndexSet := (list FieldName) (only parsing).

Record EpilinkConfig : Type := mkConfig {
  fields : gmap string ML_Field;
  exchange_groups : list IndexSet;
  threshold : Q;
  tthreshold : Q;
  matching_mode : bool;
  bitlen : Z;
  nfields : Z;
  max_weight : Weight;
  dice_prec : Z;
  weight_prec : Z
}.

(** One step of a running maximum under [<]. *)
Definition max_step {A : Type} (op : A -> Q) (m : Q) (y : A) : Q :=
  if Qlt_le_dec m (op y) then op y else m.

(** Modelled from the spec: [sel::max_element] of util.h (the header is
    not available): the largest value of [op] over the container, the
    "max_weight" of the data model.  An empty container has no largest
    element. *)
Definition sel_max_element {A : Type} (op : A -> Q) (c : list A) : option Q :=
  match c with
  | [] => None
  | x :: xs => Some (fold_left (max_step op) xs (op x))
  end.

(** The loop of epilink_input.cpp:48-53. *)
Definition max_bm_size_step (m : Z) (f : string * ML_Field) : Z :=
  match comparator f.2 with
  | DICE => Z.max m (bitsize f.2)
  | BINARY => m
  end.

Definition max_bm_size_of (fs : gmap string ML_Field) : Z :=
  fold_left max_bm_size_step (map_to_list fs) 0.

(** Bit budget as the code evaluates it, in [size_t]. *)
Definition budget_sum (dp wp n : Z) : Z :=
  sz_add (sz_add dp (sz_mul 2 wp)) (ceil_log2 (sz_mul n n)).

(** The inner loop of the sanity checks, epilink_input.cpp:80-101. *)
Fixpoint check_group (fs : gmap string ML_Field) (f0 : ML_Field)
    (group : list FieldName) (xgunion : gset string) : Result (gset string) :=
  match group with
  | [] => Ok xgunion
  | fname :: rest =>
      if decide (fname ∈ xgunion) then Err (InvalidArgument GroupsNotDistinct)
      else
        match fs !! fname with
        | None => Err OutOfRange
        | Some f =>
            if decide (comparator f = comparator f0) then
              if decide (bitsize f = bitsize f0) then
                check_group fs f0 rest ({[fname]} ∪ xgunion)
              else Err (InvalidArgument BitsizeMismatch)
            else Err (InvalidArgument ComparatorMismatch)
        end
  end.

(** The outer loop, epilink_input.cpp:78-102. *)
Fixpoint check_exchange_groups (fs : gmap string ML_Field)
    (groups : list IndexSet) (xgunion : gset string) : Result unit :=
  match groups with
  | [] => Ok ()
  | group :: rest =>
      match group with
      | [] => Err UndefinedBehaviour
      | first :: _ =>
          match fs !! first with
          | None => Err OutOfRange
          | Some f0 =>
              match check_group fs f0 group xgunion with
              | Ok xg => check_exchange_groups fs rest xg
              | Err e => Err e
              end
          end
      end
  end.

(** What the inner loop requires of a group member: it is configured and
    agrees with the first field of the group. *)
Definition like (fs : gmap string ML_Field) (f0 : ML_Field) (n : string) : Prop :=
  exists f, fs !! n = Some f /\ comparator f = comparator f0 /\
            bitsize f = bitsize f0.

(** The conditions on exchange groups, in the words of the data model:
    every group is non-empty and names configured fields only; *)
Definition groups_known (fs : gmap string ML_Field) (gs : list IndexSet) : Prop :=
  forall g, g ∈ gs -> g <> [] /\ forall n, n ∈ g -> is_Some (fs !! n).

(** no field appears in two groups, or twice in a group; *)
Definition groups_disjoint (gs : list IndexSet) : Prop := NoDup (concat gs).

(** two fields of one group have the same comparator; *)
Definition same_comparator (fs : gmap string ML_Field) (gs : list IndexSet)
    : Prop :=
  forall g a b fa fb, g ∈ gs -> a ∈ g -> b ∈ g ->
    fs !! a = Some fa -> fs !! b = Some fb -> comparator fa = comparator fb.

(** and the same bitsize. *)
Definition same_bitsize (fs : gmap string ML_Field) (gs : list IndexSet)
    : Prop :=
  forall g a b fa fb, g ∈ gs -> a ∈ g -> b ∈ g ->
    fs !! a = Some fa -> fs !! b = Some fb -> bitsize fa = bitsize fb.

Definition groups_valid (fs : gmap string ML_Field) (gs : list IndexSet)
    : Prop :=
  groups_disjoint gs /\ same_comparator fs gs /\ same_bitsize fs gs.

(** [EpilinkConfig::EpilinkConfig], epilink_input.cpp:32-103. *)
Definition EpilinkConfig_new (fields_ : gmap string ML_Field)
    (exchange_groups_ : list IndexSet) (threshold_ tthreshold_ : Q)
    (matching_mode_ : bool) (bitlen_ : Z) : Result EpilinkConfig :=
  let nfields_ := Z.of_nat (size fields_) in
  match sel_max_element (fun f : string * ML_Field => weight f.2)
                        (map_to_list fields_) with
  | None => Err UndefinedBehaviour
  | Some max_weight_ =>
      let max_bm_size := max_bm_size_of fields_ in
      let dice_prec_ := sz_sub (16 - 1) (hw_size max_bm_size) in
      let weight_prec_ :=
        sz_div (sz_sub (sz_sub bitlen_ (ceil_log2 (sz_mul nfields_ nfields_)))
                       dice_prec_) 2 in
      if budget_sum dice_prec_ weight_prec_ nfields_ <=? bitlen_ then
        match check_exchange_groups fields_ exchange_groups_ ∅ with
        | Ok _ =>
            Ok (mkConfig fields_ exchange_groups_ threshold_ tthreshold_
                         matching_mode_ bitlen_ nfields_ max_weight_
                         dice_prec_ weight_prec_)
        | Err e => Err e
        end
      else Err AssertionFailed
  end.

Definition with_precisions (c : EpilinkConfig) (dp wp : Z) : EpilinkConfig :=
  mkConfig (fields c) (exchange_groups c) (threshold c) (tthreshold c)
           (matching_mode c) (bitlen c) (nfields c) (max_weight c) dp wp.

(** A member function of the configuration: the value returned or the
    exception thrown, with the object afterwards. *)
Definition ConfigMethod (A : Type) : Type :=
  EpilinkConfig -> Result A * EpilinkConfig.

(** [EpilinkConfig::set_precisions], epilink_input.cpp:105-117. *)
Definition set_precisions (dice_prec_ weight_prec_ : Z) : ConfigMethod unit :=
  fun c =>
    if bitlen c <? budget_sum dice_prec_ weight_prec_ (nfields c) then
      (Err (InvalidArgument PrecisionOverflow), c)
    else (Ok (), with_precisions c dice_prec_ weight_prec_).

(** The two locals of [set_ideal_precision] before the call of
    [set_precisions], epilink_input.cpp:120-129. *)
Definition ideal_precisions (c : EpilinkConfig) : Z * Z :=
  let bits_av := sz_sub (bitlen c) (ceil_log2 (sz_mul (nfields c) (nfields c))) in
  let dp := sz_div bits_av 3 in
  let wp := dp in
  if sz_rem bits_av 3 =? 1 then (sz_add dp 1, wp)
  else if sz_rem bits_av 3 =? 2 then (dp, sz_add wp 1)
  else (dp, wp).

(** [EpilinkConfig::set_ideal_precision], epilink_input.cpp:119-132. *)
Definition set_ideal_precision : ConfigMethod unit := fun c =>
  set_precisions (ideal_precisions c).1 (ideal_precisions c).2 c.

(** ** The rescaled weight of a field pair *)

Section FieldWeight.
(** [rescale_weight], epilink_input.cpp:167: a double division, a double
    product and [llround]; here it is a parameter, its floating-point
    arithmetic is embedded further down. *)
Variable rescale_weight : Weight -> Z -> Weight -> Z.
(** The double expression [(a + b)/2]. *)
Variable weight_average : Weight -> Weight -> Weight.

(** The checks and the constant [weight_r] of [SELCircuit::field_weight],
    secure_epilinker.cpp:489-510. *)
Definition field_weight_r (cfg : EpilinkConfig) (ileft iright : FieldName)
    : Result Z :=
  match fields cfg !! ileft, fields cfg !! iright with
  | Some fleft, Some fright =>
      if decide (comparator fleft = comparator fright) then
        if decide (bitsize fleft = bitsize fright) then
          Ok (rescale_weight (weight_average (weight fleft) (weight fright))
                             (weight_prec cfg) (max_weight cfg))
        else Err RuntimeError
      else Err RuntimeError
  | _, _ => Err OutOfRange
  end.
End FieldWeight.

(** ** Threshold constants and the two comparison bits *)

(** [1 << p] on [int]: defined for shifts that stay below the sign bit. *)
Definition int_shl1 (p : Z) : option Z :=
  if (0 <=? p) && (p <? 31) then Some (2 ^ p) else None.

(** Truncation toward zero, the conversion of a double to an integer. *)
Definition Qtrunc (x : Q) : Z :=
  if Qle_bool 0 x then Qfloor x else Qceiling x.

(** Conversion of a double to the [BitLen]-bit unsigned [CircUnit]; it is
    undefined when the truncated value is not representable. *)
Definition to_CircUnit (BitLen : Z) (x : Q) : option Z :=
  let t := Qtrunc x in
  if (0 <=? t) && (t <? 2 ^ BitLen) then Some t else None.

(** [cfg.threshold * (1 << cfg.dice_prec)] converted to [CircUnit],
    secure_epilinker.cpp:310-311. *)
Definition threshold_constant (BitLen : Z) (thr : Q) (dp : Z) : option Z :=
  match int_shl1 dp with
  | Some s => to_CircUnit BitLen (thr * inject_Z s)%Q
  | None => None
  end.

(** The constants [T] and [Tt] of [SELCircuit::set_constants]. *)
Definition set_constants (BitLen : Z) (cfg : EpilinkConfig) : option (Z * Z) :=
  match threshold_constant BitLen (threshold cfg) (dice_prec cfg),
        threshold_constant BitLen (tthreshold cfg) (dice_prec cfg) with
  | Some T, Some Tt => Some (T, Tt)
  | _, _ => None
  end.

(** Modelled from the spec: the product of two arithmetic shares of
    aby/Share.h, "arithmetic (mod 2^k)". *)
Definition arith_mul (BitLen a b : Z) : Z := (a * b) mod 2 ^ BitLen.

(** Step 6 of [SELCircuit::build_circuit], secure_epilinker.cpp:224-228:
    the bits [match] and [tmatch] for the winning quotient [num/den]. *)
Definition threshold_bits (BitLen T Tt num den : Z) : bool * bool :=
  let threshold_weight := arith_mul BitLen T den in
  let tthreshold_weight := arith_mul BitLen Tt den in
  let b_sum_field_weight := num in
  (threshold_weight <? b_sum_field_weight,
   tthreshold_weight <? b_sum_field_weight).

(** [set_constants] followed by step 6. *)
Definition match_bits (BitLen : Z) (cfg : EpilinkConfig) (num den : Z)
    : option (bool * bool) :=
  match set_constants BitLen cfg with
  | Some (T, Tt) => Some (threshold_bits BitLen T Tt num den)
  | None => None
  end.

(** ** Engine facade *)

Record SecureEpilinker : Type := mkEngine {
  is_built : bool;
  is_setup : bool;
  warnings : list string
}.

Inductive EngineState : Type := Created | Built | SetupDone.

Definition engine_state (s : SecureEpilinker) : EngineState :=
  if is_built s then (if is_setup s then SetupDone else Built) else Created.

(** Modelled from the spec: the initial values of the two flags, declared
    in secure_epilinker.h (the header is not available); "new" leaves the
    "engine in Created". *)
Definition SecureEpilinker_new : SecureEpilinker := mkEngine false false [].

(** A member function: the result, or the exception thrown, with the
    state of the object afterwards. *)
Definition Method (A : Type) : Type :=
  SecureEpilinker -> Result A * SecureEpilinker.

(** [SecureEpilinker::build_circuit], secure_epilinker.cpp:568-573. *)
Definition build_circuit (nvals : Z) : Method unit := fun s =>
  (Ok (), mkEngine true (is_setup s) (warnings s)).

(** [SecureEpilinker::run_setup_phase], secure_epilinker.cpp:575-580. *)
Definition run_setup_phase : Method unit := fun s =>
  if is_built s then (Ok (), mkEngine (is_built s) true (warnings s))
  else (Err RuntimeError, s).

(** [SecureEpilinker::reset], secure_epilinker.cpp:633-637. *)
Definition reset : Method unit := fun s =>
  (Ok (), mkEngine false false (warnings s)).

Definition setup_warning : string := "Warning: Implicitly running setup phase.".

(** The guard that opens [run_as_client] and [run_as_server]. *)
Definition ensure_setup : Method unit := fun s =>
  if is_setup s then (Ok (), s)
  else run_setup_phase
         (mkEngine (is_built s) (is_setup s) (warnings s ++ [setup_warning])).

Section Run.
Variables ClientInput ServerInput Shares LinkResult : Type.
(** [SELCircuit::set_client_input] and [set_server_input]. *)
Variable set_client_input : ClientInput -> Result Shares.
Variable set_server_input : ServerInput -> Result Shares.
(** [selc->build_circuit()], [party.ExecCircuit()] and the decoding of
    the clear values. *)
Variable exec_circuit : Shares -> Result LinkResult.

(** [SecureEpilinker::run_circuit], secure_epilinker.cpp:614-631. *)
Definition run_circuit (sh : Shares) : Method LinkResult := fun s =>
  match exec_circuit sh with
  | Ok res => (Ok res, mkEngine (is_built s) false (warnings s))
  | Err e => (Err e, s)
  end.

(** [SecureEpilinker::run_as_client], secure_epilinker.cpp:582-590. *)
Definition run_as_client (input : ClientInput) : Method LinkResult := fun s =>
  match ensure_setup s with
  | (Ok _, s1) =>
      match set_client_input input with
      | Ok sh => run_circuit sh s1
      | Err e => (Err e, s1)
      end
  | (Err e, s1) => (Err e, s1)
  end.

(** [SecureEpilinker::run_as_server], secure_epilinker.cpp:592-600. *)
Definition run_as_server (input : ServerInput) : Method LinkResult := fun s =>
  match ensure_setup s with
  | (Ok _, s1) =>
      match set_server_input input with
      | Ok sh => run_circuit sh s1
      | Err e => (Err e, s1)
      end
  | (Err e, s1) => (Err e, s1)
  end.
End Run.

(** The flags reachable from [SecureEpilinker_new]: setup implies built. *)
Definition flags_consistent (s : SecureEpilinker) : Prop :=
  is_setup s = true -> is_built s = true.

(** The engine after [build_circuit] and [run_setup_phase]. *)
Definition engine_setup_done : SecureEpilinker := mkEngine true true [].

(** ** Concrete configurations used in the examples below *)

Definition binary_field (n : string) (w : Q) (bits : Z) : ML_Field :=
  mkField n w BINARY bits.
Definition dice_field (n : string) (w : Q) (bits : Z) : ML_Field :=
  mkField n w DICE bits.

(** One BINARY field, as [input_simple] of test_sel.cpp. *)
Definition fields_int1 : gmap string ML_Field :=
  {[ "int_1" := binary_field "int_1" 1%Q 29 ]}.

(** Three BINARY fields. *)
Definition fields_three : gmap string ML_Field :=
  list_to_map [("int_1", binary_field "int_1" 1%Q 29);
               ("int_2", binary_field "int_2" 3%Q 32);
               ("int_3", binary_field "int_3" 2%Q 32)].

(** The four fields of [make_test_data] of test_sel.cpp. *)
Definition fields_test : gmap string ML_Field :=
  list_to_map [("int_1", binary_field "int_1" 1%Q 29);
               ("int_2", binary_field "int_2" 3%Q 32);
               ("bm_1", dice_field "bm_1" 2%Q 8);
               ("bm_2", dice_field "bm_2" 4%Q 8)].

(** One bitmask of 8 bits, as [input_simple_bm] of test_sel.cpp. *)
Definition fields_bm1 : gmap string ML_Field :=
  {[ "bm_1" := dice_field "bm_1" 2%Q 8 ]}.

(** One bitmask of 32768 bits. *)
Definition fields_wide : gmap string ML_Field :=
  {[ "bm" := dice_field "bm" 1%Q 32768 ]}.

(** The result of the constructor for [fields_test] with the exchange
    group {bm_1, bm_2} on a 32-bit machine. *)
Definition cfg_test : EpilinkConfig :=
  mkConfig fields_test [["bm_1"; "bm_2"]] (9 # 10) (7 # 10) false 32 4 (4 # 1) 11 8.

(** The result of the constructor for [fields_int1] on a 32-bit machine. *)
Definition cfg_int1 (thr tthr : Q) : EpilinkConfig :=
  mkConfig fields_int1 [] thr tthr false 32 1 1%Q 14 9.

(** * The rest of the linkage code: inputs, Hamming weights, field weights,
      the bookkeeping of the circuit builder and the server run *)

(** ** Bitmasks and their Hamming weight *)

(** A [Bitmask] is a vector of bytes; a [FieldEntry] is an optional
    bitmask and a [VFieldEntry] a vector of entries. *)
Abbreviation Bitmask := (list Byte.byte) (only parsing).
Abbreviation FieldEntry := (option (list Byte.byte)) (only parsing).
Abbreviation VFieldEntry := (list (option (list Byte.byte))) (only parsing).

Definition bit_count (b : bool) : Z := if b then 1 else 0.

(** [__builtin_popcount] on a byte. *)
Definition popcount (b : Byte.byte) : Z :=
  let '(b0, (b1, (b2, (b3, (b4, (b5, (b6, b7))))))) := Byte.to_bits b in
  bit_count b0 + bit_count b1 + bit_count b2 + bit_count b3 +
  bit_count b4 + bit_count b5 + bit_count b6 + bit_count b7.

(** [hw(const Bitmask&)], secure_epilinker.cpp:41-47; the counter is a
    [CircUnit] of [BitLen] bits. *)
Definition hw (BitLen : Z) (bm : list Byte.byte) : Z :=
  fold_left (fun n b => (n + popcount b) mod 2 ^ BitLen) bm 0.

(** [hw(const vector<Bitmask>&)], secure_epilinker.cpp:50-55. *)
Definition hw_vec (BitLen : Z) (v_bm : list (list Byte.byte)) : list Z :=
  map (hw BitLen) v_bm.

(** [Bitmask(bytesize)]: a vector of [bytesize] zero bytes. *)
Definition zero_bitmask (bytesize : Z) : list Byte.byte :=
  replicate (Z.to_nat bytesize) Byte.x00.

(** The number of set bits of a bitmask, read off the numeric value of
    each byte bit by bit: what [hw] is meant to count. *)
Definition byte_value (b : Byte.byte) : Z := Z.of_N (Byte.to_N b).

Definition set_bits_of_byte (b : Byte.byte) : Z :=
  fold_right (fun i n => Z.b2z (Z.testbit (byte_value b) (Z.of_nat i)) + n)
             0 (seq 0 8).

Definition set_bits (bm : list Byte.byte) : Z :=
  fold_right (fun b n => set_bits_of_byte b + n) 0 bm.

(** The two operands that [dice_coefficient] hands to the 16-bit integer
    division, secure_epilinker.cpp:95-109: [hw_and << (prec + 1)] and
    [hw_x + hw_y]. *)
Definition dice_operands (prec hw_and hw_x hw_y : Z) : Z * Z :=
  (Z.shiftl hw_and (prec + 1), hw_x + hw_y).

(** ** Field weights, lane by lane *)

(** The arithmetic of [SELCircuit::field_weight] on the clear values of one
    SIMD lane, secure_epilinker.cpp:512-549: [delta], [weight] and
    [field_weight] are products of arithmetic shares; [comp] is the
    comparison result as an arithmetic share. *)
Definition field_weight_lane (BitLen weight_r delta_client delta_server comp : Z)
    : Z * Z :=
  let delta := arith_mul BitLen delta_client delta_server in
  let weight := arith_mul BitLen weight_r delta in
  let field_weight := arith_mul BitLen weight comp in
  (field_weight, weight).

(** Modelled from the spec: the sum of a vector of arithmetic shares of
    aby/gadgets.h, "arithmetic (mod 2^k)". *)
Definition arith_sum (BitLen : Z) (l : list Z) : Z :=
  fold_left (fun a x => (a + x) mod 2 ^ BitLen) l 0.

(** [sum(const vector<FieldWeight>&)], secure_epilinker.cpp:75-85: "Sums
    all fw's and w's in given vector and returns sums as ArithQuotient". *)
Definition sum_field_weights (BitLen : Z) (fweights : list (Z * Z)) : Z * Z :=
  (arith_sum BitLen (map fst fweights), arith_sum BitLen (map snd fweights)).

(** The lanes of several field weights: each element gives the rescaled
    weight, the two delta flags and the comparison of one field. *)
Definition field_weight_lanes (BitLen : Z) (xs : list (Z * Z * Z * Z))
    : list (Z * Z) :=
  map (fun '(weight_r, delta_client, delta_server, comp) =>
         field_weight_lane BitLen weight_r delta_client delta_server comp) xs.

(** The field weight and the weight of one lane, and their sums over the
    lanes of a row, in the integers: what the arithmetic shares hold
    when nothing wraps. *)
Definition lane_products (x : Z * Z * Z * Z) : Z * Z :=
  let '(weight_r, delta_client, delta_server, comp) := x in
  (weight_r * (delta_client * delta_server) * comp,
   weight_r * (delta_client * delta_server)).

Definition integer_sums (xs : list (Z * Z * Z * Z)) : Z * Z :=
  (fold_right Z.add 0 (map (fun x => fst (lane_products x)) xs),
   fold_right Z.add 0 (map (fun x => snd (lane_products x)) xs)).

(** What the builder feeds into a lane: a rescaled weight below
    2^weight_prec, two flags, a comparison of at most 2^dice_prec. *)
Definition lane_inputs_ok (dp wp : Z) (x : Z * Z * Z * Z) : Prop :=
  let '(weight_r, delta_client, delta_server, comp) := x in
  0 <= weight_r < 2 ^ wp /\
  (delta_client = 0 \/ delta_client = 1) /\
  (delta_server = 0 \/ delta_server = 1) /\
  0 <= comp <= 2 ^ dp.

(** ** The constant index vector *)

(** Modelled from the spec: [constant(bcirc, value, bitlen)] of
    aby/Share.h, a boolean constant of [bitlen] bits: the low bits of the
    value. *)
Definition bool_constant (value bits : Z) : Z := value mod 2 ^ bits.

(** The lanes of [const_idx], [SELCircuit::set_constants],
    secure_epilinker.cpp:299-307. *)
Definition const_idx (nvals : Z) : list Z :=
  map (fun i : nat => bool_constant (Z.of_nat i) (ceil_log2_min1 nvals))
      (seq 0 (Z.to_nat nvals)).

(** ** The fields outside the exchange groups *)

(** The inner loop of secure_epilinker.cpp:194-198: every member of the
    group is erased from [no_x_group]; a member that is not there makes
    the builder throw. *)
Fixpoint erase_group (group : list FieldName) (no_x_group : gset string)
    : Result (gset string) :=
  match group with
  | [] => Ok no_x_group
  | i :: rest =>
      if decide (i ∈ no_x_group) then erase_group rest (no_x_group ∖ {[i]})
      else Err RuntimeError
  end.

(** The loop over the groups, secure_epilinker.cpp:190-199, without the
    calls of [best_group_weight]. *)
Fixpoint erase_groups (groups : list IndexSet) (no_x_group : gset string)
    : Result (gset string) :=
  match groups with
  | [] => Ok no_x_group
  | group :: rest =>
      match erase_group group no_x_group with
      | Ok s => erase_groups rest s
      | Err e => Err e
      end
  end.

(** [no_x_group] when the loop of step 1.2 starts, secure_epilinker.cpp:
    186-201: it is filled with all field names first. *)
Definition remaining_fields (cfg : EpilinkConfig) : Result (gset string) :=
  erase_groups (exchange_groups cfg) (dom (fields cfg)).

(** ** Input shapes *)

(** Modelled from the spec: [bitbytes] of util.h (the header is not
    available), the "ceil(bit_width/8)" bytes of a payload. *)
Definition bitbytes (bits : Z) : Z := (bits + 7) / 8.

(** A [std::map<FieldName, VFieldEntry>] as the list of its entries in key
    order; [at] is the lookup that throws [std::out_of_range]. *)
Fixpoint database_at (database : list (string * list (option (list Byte.byte))))
    (i : string) : Result (list (option (list Byte.byte))) :=
  match database with
  | [] => Err OutOfRange
  | (k, col) :: rest => if decide (k = i) then Ok col else database_at rest i
  end.

Record EpilinkServerInput : Type := mkServerInput {
  database : list (string * list (option (list Byte.byte)));
  server_nvals : Z
}.

Record EpilinkClientInput : Type := mkClientInput {
  record : gmap string (option (list Byte.byte));
  client_nvals : Z
}.

(** The arguments [(data, bitlen, nvals)] of the constructor of an input
    share, [BoolShare(bcirc, data, bitlen, role, nvals)] or
    [ArithShare(acirc, data, bitlen, role, nvals)]: the buffer as the
    code fills it, the width and the number of lanes it asks for.  What
    the backend reads from the buffer is not modelled. *)
Record ShareArgs (A : Type) : Type := mkShareArgs {
  share_data : list A;
  share_bitlen : Z;
  share_nvals : Z
}.
Arguments mkShareArgs {A} _ _ _.
Arguments share_data {A} _.
Arguments share_bitlen {A} _.
Arguments share_nvals {A} _.

(** The three input shares of one field that the input setters assign,
    [ValueShare] of secure_epilinker.cpp:256-261; [share_hw] is assigned
    for bitmask fields only. *)
Record ValueShare : Type := mkValueShare {
  share_val : ShareArgs Byte.byte;
  share_hw : option (ShareArgs Z);
  share_delta : ShareArgs Z
}.

(** Modelled from the spec: [repeat_vec] of util.h (the header is not
    available): the vector "replicated [nvals] times". *)
Definition repeat_vec {A : Type} (v : list A) (nvals : Z) : list A :=
  concat (replicate (Z.to_nat nvals) v).

(** Modelled from the spec: [concat_vec] of util.h (the header is not
    available): the vectors one after the other. *)
Definition concat_vec {A : Type} (vs : list (list A)) : list A := concat vs.

(** The fields in the order in which a loop over [cfg.fields] visits
    them: a [std::map] is traversed by ascending key. *)
Definition key_le (a b : string * ML_Field) : Prop :=
  String.leb a.1 b.1 = true.

Definition fields_in_order (cfg : EpilinkConfig) : list (string * ML_Field) :=
  @merge_sort _ key_le (fun a b => decide (String.leb a.1 b.1 = true))
              (map_to_list (fields cfg)).

(** A loop over the fields that assigns [ins[i]] for each of them and
    stops at the first exception; the result lists the assignments of a
    loop that ran to its end, those made before an exception are not
    kept. *)
Fixpoint for_each_field {A : Type} (body : string -> ML_Field -> Result A)
    (fs : list (string * ML_Field)) : Result (list (string * A)) :=
  match fs with
  | [] => Ok []
  | (i, f) :: rest =>
      match body i f with
      | Err e => Err e
      | Ok a =>
          match for_each_field body rest with
          | Err e => Err e
          | Ok r => Ok ((i, a) :: r)
          end
      end
  end.

Definition has_value (e : option (list Byte.byte)) : Z :=
  match e with Some _ => 1 | None => 0 end.

(** [entry.value_or(Bitmask(bytesize))]. *)
Definition value_or_zero (bytesize : Z) (e : option (list Byte.byte))
    : list Byte.byte :=
  match e with Some v => v | None => zero_bitmask bytesize end.

Section Inputs.
(** The exception of [check_vector_size] and [check_vectors_size] of
    util.h (the header is not available). *)
Variable size_error : Error.

(** Modelled from the spec: [check_vector_size] of util.h: a vector whose
    length is not the expected one is refused ("ShapeMismatch"). *)
Definition check_vector_size {A : Type} (v : list A) (size : Z) : Result unit :=
  if Z.of_nat (length v) =? size then Ok () else Err size_error.

(** Modelled from the spec: [check_vectors_size] of util.h:
    [check_vector_size] for every vector of the list. *)
Fixpoint check_vectors_size {A : Type} (vs : list (list A)) (size : Z)
    : Result unit :=
  match vs with
  | [] => Ok ()
  | v :: rest =>
      match check_vector_size v size with
      | Ok _ => check_vectors_size rest size
      | Err e => Err e
      end
  end.

(** The loop of the constructor below, epilink_input.cpp:140-142. *)
Fixpoint check_columns (rows : list (string * list (option (list Byte.byte))))
    (nvals : Z) : Result unit :=
  match rows with
  | [] => Ok ()
  | row :: rest =>
      match check_vector_size row.2 nvals with
      | Ok _ => check_columns rest nvals
      | Err e => Err e
      end
  end.

(** [EpilinkServerInput::EpilinkServerInput], epilink_input.cpp:134-143;
    [cbegin()] of an empty map must not be dereferenced. *)
Definition EpilinkServerInput_new
    (database_ : list (string * list (option (list Byte.byte))))
    : Result EpilinkServerInput :=
  match database_ with
  | [] => Err UndefinedBehaviour
  | (_, col) :: _ =>
      let nvals := Z.of_nat (length col) in
      match check_columns database_ nvals with
      | Ok _ => Ok (mkServerInput database_ nvals)
      | Err e => Err e
      end
  end.

(** [cfg.size_hw], the width of the Hamming-weight shares: a member
    declared in epilink_input.h (the header is not available) that the
    constructor at hand does not mention. *)
Variable size_hw : Z.

(** The body of the loop of [set_real_client_input] for the field [f]
    named [i], secure_epilinker.cpp:329-352; [BM] there is the comparator
    of bitmasks, [DICE] here. *)
Definition client_share_of_field (BitLen nvals : Z)
    (input : EpilinkClientInput) (i : FieldName) (f : ML_Field)
    : Result ValueShare :=
  match record input !! i with
  | None => Err OutOfRange
  | Some entry =>
      let bytesize := bitbytes (bitsize f) in
      let value := value_or_zero bytesize entry in
      match check_vector_size value bytesize with
      | Err e => Err e
      | Ok _ =>
          let n := Z.to_nat nvals in
          Ok (mkValueShare
                (mkShareArgs (repeat_vec value nvals) (bitsize f) nvals)
                (match comparator f with
                 | DICE => Some (mkShareArgs (replicate n (hw BitLen value))
                                             size_hw nvals)
                 | BINARY => None
                 end)
                (mkShareArgs (replicate n (has_value entry)) BitLen nvals))
      end
  end.

(** [SELCircuit::set_real_client_input], secure_epilinker.cpp:325-360,
    for the member [nvals] that [set_constants] has stored: the opening
    assertion, then the loop over the fields. *)
Definition set_real_client_input (BitLen nvals : Z) (cfg : EpilinkConfig)
    (input : EpilinkClientInput) : Result (list (string * ValueShare)) :=
  if 0 <? nvals then
    for_each_field (client_share_of_field BitLen nvals input)
                   (fields_in_order cfg)
  else Err AssertionFailed.

(** The body of the loop of [set_real_server_input] for the field [f]
    named [i], secure_epilinker.cpp:367-388; [transform_vec] of util.h
    is the map over the entries, and [entries[j]] for [j < nvals] must
    stay inside the column. *)
Definition server_share_of_field (BitLen nvals : Z)
    (input : EpilinkServerInput) (i : FieldName) (f : ML_Field)
    : Result ValueShare :=
  match database_at (database input) i with
  | Err e => Err e
  | Ok entries =>
      let bytesize := bitbytes (bitsize f) in
      let values := map (value_or_zero bytesize) entries in
      match check_vectors_size values bytesize with
      | Err e => Err e
      | Ok _ =>
          if nvals <=? Z.of_nat (length entries) then
            Ok (mkValueShare
                  (mkShareArgs (concat_vec values) (bitsize f) nvals)
                  (match comparator f with
                   | DICE => Some (mkShareArgs (hw_vec BitLen values)
                                               size_hw nvals)
                   | BINARY => None
                   end)
                  (mkShareArgs (map has_value (take (Z.to_nat nvals) entries))
                               BitLen nvals))
          else Err UndefinedBehaviour
      end
  end.

(** [SELCircuit::set_real_server_input], secure_epilinker.cpp:362-396,
    for the member [nvals] that [set_constants] has stored: the opening
    assertion, then the loop over the fields. *)
Definition set_real_server_input (BitLen nvals : Z) (cfg : EpilinkConfig)
    (input : EpilinkServerInput) : Result (list (string * ValueShare)) :=
  if 0 <? nvals then
    for_each_field (server_share_of_field BitLen nvals input)
                   (fields_in_order cfg)
  else Err AssertionFailed.

(** ** The server run *)

Variables Shares LinkResult : Type.
(** [SELCircuit::set_server_input]. *)
Variable set_server_input : EpilinkServerInput -> Result Shares.
(** [selc->build_circuit()], [party.ExecCircuit()] and the decoding. *)
Variable exec_circuit : Shares -> Result LinkResult.

(** [LocalServer::run_server] on the engine [m_aby_server], with
    [m_data->data] as [data], localserver.cpp:65-80.  The input is
    constructed twice from the same data; one construction stands for
    both. *)
Definition run_server (data : list (string * list (option (list Byte.byte))))
    : Method LinkResult := fun s =>
  match data with
  | [] => (Err UndefinedBehaviour, s)
  | (_, col) :: _ =>
      let nvals := Z.of_nat (length col) in
      let s1 := snd (build_circuit nvals s) in
      match run_setup_phase s1 with
      | (Err e, s2) => (Err e, s2)
      | (Ok _, s2) =>
          match EpilinkServerInput_new data with
          | Err e => (Err e, s2)
          | Ok input =>
              match run_as_server EpilinkServerInput Shares LinkResult
                      set_server_input exec_circuit input s2 with
              | (Ok server_result, s3) => (Ok server_result, snd (reset s3))
              | (Err e, s3) => (Err e, s3)
              end
          end
      end
  end.
End Inputs.

(** ** Sequences of calls on the engine *)

Section Calls.
Variables ClientInput ServerInput Shares LinkResult : Type.
Variable set_client_input : ClientInput -> Result Shares.
Variable set_server_input : ServerInput -> Result Shares.
Variable exec_circuit : Shares -> Result LinkResult.

Inductive Call : Type :=
  | CallBuild (nvals : Z)
  | CallSetup
  | CallRunClient (input : ClientInput)
  | CallRunServer (input : ServerInput)
  | CallReset.

(** The engine after one call, whether it returned or threw. *)
Definition after_call (s : SecureEpilinker) (c : Call) : SecureEpilinker :=
  match c with
  | CallBuild nvals => snd (build_circuit nvals s)
  | CallSetup => snd (run_setup_phase s)
  | CallRunClient input =>
      snd (run_as_client ClientInput Shares LinkResult set_client_input
             exec_circuit input s)
  | CallRunServer input =>
      snd (run_as_server ServerInput Shares LinkResult set_server_input
             exec_circuit input s)
  | CallReset => snd (reset s)
  end.

Definition after_calls (s : SecureEpilinker) (cs : list Call) : SecureEpilinker :=
  fold_left after_call cs s.
End Calls.

(** ** The double arithmetic of [rescale_weight] *)

(** A [double] is a binary64 number of IEEE 754, a [spec_float] with 53
    bits of precision and exponents up to 1024; a quotient and a product
    are rounded to the nearest double, ties to even, and no intermediate
    result is kept in a wider format. *)
Definition double_div (x y : spec_float) : spec_float := SFdiv 53 1024 x y.
Definition double_mul (x y : spec_float) : spec_float := SFmul 53 1024 x y.

(** The conversion of an [unsigned long long] to [double]. *)
Definition ull_to_double (z : Z) : spec_float := binary_normalize 53 1024 z 0 false.

(** The integer nearest to [m * 2^e], halfway cases away from zero. *)
Definition round_half_away (m : positive) (e : Z) : Z :=
  match e with
  | Z.neg p =>
      let d := 2 ^ Z.pos p in
      let q := Z.pos m / d in
      let r := Z.pos m mod d in
      if d <=? 2 * r then q + 1 else q
  | _ => Z.pos m * 2 ^ e
  end.

(** [llround]: the result is unspecified for a NaN, an infinity and a
    value outside the range of [long long]. *)
Definition llround (x : spec_float) : option Z :=
  match x with
  | S754_zero _ => Some 0
  | S754_finite s m e =>
      let v := round_half_away m e in
      let v := if s then - v else v in
      if (- 2 ^ 63 <=? v) && (v <? 2 ^ 63) then Some v else None
  | _ => None
  end.

(** [rescale_weight], epilink_input.cpp:167-170:
    [max_el = (1ULL << prec) - 1ULL], then
    [llround((weight/max_weight) * max_el)] converted to
    [unsigned long long].  A shift by 64 or more is undefined. *)
Definition rescale_weight (weight : spec_float) (prec : Z)
    (max_weight : spec_float) : Result Z :=
  if (0 <=? prec) && (prec <? 64) then
    let max_el := (Z.shiftl 1 prec - 1) mod 2 ^ 64 in
    match llround (double_mul (double_div weight max_weight)
                              (ull_to_double max_el)) with
    | Some v => Ok (v mod 2 ^ 64)
    | None => Err UndefinedBehaviour
    end
  else Err UndefinedBehaviour.





(** ** Concrete inputs used in the examples below *)

(** A database of two records over the two bitmask fields of
    [fields_test]; the second record has no [bm_1]. *)
Definition db_test : list (string * list (option (list Byte.byte))) :=
  [("bm_1", [Some [Byte.x0f]; None]);
   ("bm_2", [Some [Byte.xff]; Some [Byte.x01]])].

Definition server_input_test : EpilinkServerInput := mkServerInput db_test 2.

(** A client record with an empty [bm_1] and a [bm_2] of one byte. *)
Definition client_input_test : EpilinkClientInput :=
  mkClientInput {[ "bm_1" := None; "bm_2" := Some [Byte.x33] ]} 2.

(** The two bitmask fields alone, and the result of the constructor for
    them on a 32-bit machine. *)
Definition fields_bm2 : gmap string ML_Field :=
  list_to_map [("bm_1", dice_field "bm_1" 2%Q 8);
               ("bm_2", dice_field "bm_2" 4%Q 8)].

Definition cfg_bm2 : EpilinkConfig :=
  mkConfig fields_bm2 [] (9 # 10) (7 # 10) false 32 2 (4 # 1) 11 9.

(** The lane inputs of two rows under [dice_prec = 11] and
    [weight_prec = 8]: (weight, client delta, server delta, comparison). *)
Definition lanes_full : list (Z * Z * Z * Z) :=
  [(255, 1, 1, 2048); (127, 1, 1, 1024)].
Definition lanes_half : list (Z * Z * Z * Z) :=
  [(255, 1, 0, 0); (64, 1, 1, 2048)].
Definition lanes_empty : list (Z * Z * Z * Z) :=
  [(255, 0, 1, 2048); (127, 1, 0, 0)].

(** * Properties *)

(** ** size_t arithmetic and the logarithms *)

Lemma size_t_mod_value : size_t_mod = 18446744073709551616.
Proof. reflexivity. Qed.

(** Goals that a value lies in the range of [size_t]. *)
Ltac in_size_t := unfold is_size_t; rewrite ?size_t_mod_value; lia.

Lemma wrap_is_size_t (z : Z) : is_size_t (wrap z).
Proof. unfold is_size_t, wrap. rewrite size_t_mod_value. apply Z.mod_pos_bound. lia. Qed.

Lemma wrap_small (z : Z) : is_size_t z -> wrap z = z.
Proof. unfold is_size_t, wrap. intros H. apply Z.mod_small. exact H. Qed.

Lemma wrap_wrap_add_l (a b : Z) : wrap (wrap a + b) = wrap (a + b).
Proof. unfold wrap. rewrite size_t_mod_value. apply Zplus_mod_idemp_l. Qed.

Lemma wrap_wrap_add_r (a b : Z) : wrap (a + wrap b) = wrap (a + b).
Proof. unfold wrap. rewrite size_t_mod_value. apply Zplus_mod_idemp_r. Qed.

Lemma wrap_wrap_sub_l (a b : Z) : wrap (wrap a - b) = wrap (a - b).
Proof. unfold wrap. rewrite size_t_mod_value. apply Zminus_mod_idemp_l. Qed.

Lemma ceil_log2_nonneg (n : Z) : 0 <= ceil_log2 n.
Proof. apply Z.log2_up_nonneg. Qed.

(** [ceil_log2 n] is the smallest k with 2^k >= n. *)
Lemma ceil_log2_bound (n : Z) : n <= 2 ^ ceil_log2 n.
Proof.
  unfold ceil_log2. destruct (Z_lt_le_dec 1 n) as [H|H].
  - apply Z.log2_up_spec. exact H.
  - rewrite Z.log2_up_eqn0 by exact H. simpl. lia.
Qed.

Lemma ceil_log2_least (n k : Z) : 0 <= k -> n <= 2 ^ k -> ceil_log2 n <= k.
Proof.
  intros Hk Hn. unfold ceil_log2. destruct (Z_lt_le_dec 1 n) as [H|H].
  - apply Z.log2_up_le_pow2; lia.
  - rewrite Z.log2_up_eqn0 by exact H. exact Hk.
Qed.

Lemma ceil_log2_size_t (n : Z) : is_size_t n -> 0 <= ceil_log2 n <= 64.
Proof.
  intros [H0 H1]. split; [apply ceil_log2_nonneg|].
  apply ceil_log2_least; [lia|]. rewrite size_t_mod_value in H1.
  change (2 ^ 64) with 18446744073709551616. lia.
Qed.

Lemma ceil_log2_min1_ge_1 (n : Z) : 1 <= ceil_log2_min1 n.
Proof.
  unfold ceil_log2_min1. destruct (1 <? n) eqn:E; [|lia].
  apply Z.ltb_lt in E. unfold ceil_log2.
  pose proof (Z.log2_up_pos n E). lia.
Qed.

Lemma hw_size_bounds (size : Z) : 1 <= hw_size size <= 64.
Proof.
  unfold hw_size. split; [apply ceil_log2_min1_ge_1|].
  unfold ceil_log2_min1. destruct (1 <? sz_add size 1); [|lia].
  apply ceil_log2_size_t. apply wrap_is_size_t.
Qed.

(** ** The planner of the constructor *)

(** The assertion of epilink_input.cpp:69, evaluated in [size_t], passes
    for every non-zero [bitlen]. *)
Lemma planner_assertion_passes (dp cl bitlen_ : Z) :
  1 <= bitlen_ < size_t_mod ->
  wrap (wrap (dp + wrap (2 * (wrap (wrap (bitlen_ - cl) - dp) / 2))) + cl)
    <= bitlen_.
Proof.
  intros Hb. rewrite wrap_wrap_sub_l, wrap_wrap_add_l.
  rewrite <- Z.add_assoc, (Z.add_comm (wrap _) cl), Z.add_assoc.
  rewrite wrap_wrap_add_r.
  unfold wrap in *. rewrite size_t_mod_value in *.
  Z.div_mod_to_equations. lia.
Qed.

(** Without underflow the planner computes the plain integer formulas and
    meets the budget. *)
Lemma planner_no_underflow (hw cl bitlen_ : Z) :
  1 <= hw <= 15 -> 0 <= cl -> cl + (15 - hw) <= bitlen_ < size_t_mod ->
  let dp := sz_sub (16 - 1) hw in
  let wp := sz_div (sz_sub (sz_sub bitlen_ cl) dp) 2 in
  dp = 16 - 1 - hw /\ wp = (bitlen_ - cl - dp) / 2 /\ dp + 2 * wp + cl <= bitlen_.
Proof.
  intros Hhw Hcl Hb dp wp.
  assert (Hdp : dp = 16 - 1 - hw).
  { unfold dp, sz_sub. apply wrap_small. in_size_t. }
  assert (Hwp : wp = (bitlen_ - cl - dp) / 2).
  { unfold wp, sz_div, sz_sub. rewrite wrap_wrap_sub_l.
    rewrite wrap_small; [reflexivity|]. unfold is_size_t. lia. }
  split; [exact Hdp|]. split; [exact Hwp|].
  rewrite Hwp. Z.div_mod_to_equations. lia.
Qed.

(** ** The loops over the field map *)

Lemma fold_max_bm_ge (l : list (string * ML_Field)) (a : Z) :
  a <= fold_left max_bm_size_step l a.
Proof.
  revert a. induction l as [|x l IH]; intros a; simpl; [lia|].
  etransitivity; [|apply IH]. unfold max_bm_size_step.
  destruct (comparator x.2); lia.
Qed.

Lemma fold_max_bm_upper (l : list (string * ML_Field)) (a : Z) x :
  x ∈ l -> comparator x.2 = DICE ->
  bitsize x.2 <= fold_left max_bm_size_step l a.
Proof.
  revert a. induction l as [|y l IH]; intros a Hin Hd.
  - inversion Hin.
  - simpl. apply elem_of_cons in Hin as [->|Hin].
    + etransitivity; [|apply fold_max_bm_ge].
      unfold max_bm_size_step. rewrite Hd. lia.
    + apply IH; assumption.
Qed.

Lemma fold_max_bm_attained (l : list (string * ML_Field)) (a : Z) :
  fold_left max_bm_size_step l a = a \/
  exists x, x ∈ l /\ comparator x.2 = DICE /\
            bitsize x.2 = fold_left max_bm_size_step l a.
Proof.
  revert a. induction l as [|y l IH]; intros a; simpl; [left; reflexivity|].
  destruct (IH (max_bm_size_step a y)) as [H|(x & Hx & Hd & Hb)].
  - rewrite H. unfold max_bm_size_step.
    destruct (comparator y.2) eqn:E; [|left; reflexivity].
    destruct (Z.max_spec a (bitsize y.2)) as [[_ Hm]|[_ Hm]]; rewrite Hm.
    + right. exists y. split; [left|]. split; [exact E|reflexivity].
    + left; reflexivity.
  - right. exists x. split; [right; exact Hx|]. split; assumption.
Qed.

Lemma max_bm_size_nonneg (fs : gmap string ML_Field) : 0 <= max_bm_size_of fs.
Proof. apply fold_max_bm_ge. Qed.

Lemma max_bm_size_upper (fs : gmap string ML_Field) k f :
  fs !! k = Some f -> comparator f = DICE -> bitsize f <= max_bm_size_of fs.
Proof.
  intros Hk Hd. unfold max_bm_size_of.
  apply (fold_max_bm_upper _ 0 (k, f)); [|exact Hd].
  apply elem_of_map_to_list. exact Hk.
Qed.

Lemma max_bm_size_attained (fs : gmap string ML_Field) :
  max_bm_size_of fs = 0 \/
  exists k f, fs !! k = Some f /\ comparator f = DICE /\
              bitsize f = max_bm_size_of fs.
Proof.
  unfold max_bm_size_of.
  destruct (fold_max_bm_attained (map_to_list fs) 0) as [H|([k f] & Hx & Hd & Hb)].
  - left; exact H.
  - right. exists k, f. split; [|split; assumption].
    apply elem_of_map_to_list. exact Hx.
Qed.

Lemma hw_size_hw_bits (w : Z) : 0 <= w -> w + 1 < size_t_mod -> hw_size w = hw_bits w.
Proof.
  intros H0 H1. unfold hw_size, hw_bits, sz_add.
  rewrite wrap_small; [reflexivity|]. unfold is_size_t. lia.
Qed.

Lemma hw_bits_small (w : Z) : 0 <= w -> hw_bits w <= 15 -> w + 1 <= 2 ^ 15.
Proof.
  intros H0 H. unfold hw_bits, ceil_log2_min1 in H.
  destruct (1 <? w + 1) eqn:E.
  - pose proof (ceil_log2_bound (w + 1)) as Hb.
    assert (2 ^ ceil_log2 (w + 1) <= 2 ^ 15) by (apply Z.pow_le_mono_r; lia).
    lia.
  - apply Z.ltb_ge in E. change (2 ^ 15) with 32768. lia.
Qed.

Lemma sz_mul_square (n : Z) : 0 <= n < 2 ^ 32 -> sz_mul n n = n ^ 2.
Proof.
  intros H. unfold sz_mul. rewrite wrap_small; [lia|].
  unfold is_size_t. rewrite size_t_mod_value.
  change (2 ^ 32) with 4294967296 in H. nia.
Qed.

(** What a successful construction has computed. *)
Lemma EpilinkConfig_new_Ok fs gs thr tthr mm bl cfg :
  EpilinkConfig_new fs gs thr tthr mm bl = Ok cfg ->
  let n := Z.of_nat (size fs) in
  let dp := sz_sub (16 - 1) (hw_size (max_bm_size_of fs)) in
  let wp := sz_div (sz_sub (sz_sub bl (ceil_log2 (sz_mul n n))) dp) 2 in
  exists mw,
    sel_max_element (fun f : string * ML_Field => weight f.2) (map_to_list fs)
      = Some mw /\
    cfg = mkConfig fs gs thr tthr mm bl n mw dp wp /\
    budget_sum dp wp n <= bl /\
    check_exchange_groups fs gs ∅ = Ok ().
Proof.
  intros H n dp wp. unfold EpilinkConfig_new in H.
  destruct (sel_max_element _ _) as [mw|]; [|discriminate].
  cbv zeta in H. fold n in H. fold dp in H. fold wp in H.
  destruct (budget_sum dp wp n <=? bl) eqn:Hb; [|discriminate].
  destruct (check_exchange_groups fs gs ∅) as [[]|e] eqn:Hc; [|discriminate].
  exists mw. injection H as <-. apply Z.leb_le in Hb. auto.
Qed.

(** ** C1: the bit budget *)

(** In the regime without underflow the constructor does establish the
    budget, read in the integers. *)
Lemma constructor_budget_no_underflow fs gs thr tthr mm bl cfg :
  EpilinkConfig_new fs gs thr tthr mm bl = Ok cfg ->
  Z.of_nat (size fs) < 2 ^ 32 ->
  hw_bits (max_bm_size_of fs) <= 15 ->
  ceil_log2 (nfields cfg ^ 2) + (16 - 1 - hw_bits (max_bm_size_of fs)) <= bl ->
  bl < size_t_mod ->
  dice_prec cfg + 2 * weight_prec cfg + ceil_log2 (nfields cfg ^ 2) <= bitlen cfg.
Proof.
  intros Hnew Hn Hhw Hcl Hbl.
  destruct (EpilinkConfig_new_Ok _ _ _ _ _ _ _ Hnew) as (mw & _ & -> & _ & _).
  simpl in *.
  pose proof (max_bm_size_nonneg fs) as Hm.
  pose proof (hw_bits_small _ Hm Hhw) as Hsmall.
  rewrite size_t_mod_value in Hbl.
  rewrite hw_size_hw_bits by (rewrite ?size_t_mod_value; change (2 ^ 15) with 32768 in Hsmall; lia).
  rewrite sz_mul_square by lia.
  assert (1 <= hw_bits (max_bm_size_of fs)) by apply ceil_log2_min1_ge_1.
  pose proof (ceil_log2_nonneg (Z.of_nat (size fs) ^ 2)).
  destruct (planner_no_underflow (hw_bits (max_bm_size_of fs))
              (ceil_log2 (Z.of_nat (size fs) ^ 2)) bl) as (_ & _ & H3);
    [lia|lia|rewrite size_t_mod_value; lia|].
  exact H3.
Qed.

(** C1 (code defect).  The constructor accepts three BINARY fields on a
    16-bit machine: the subtraction [bitlen - ceil_log2(9) - dice_prec] =
    16 - 4 - 14 underflows in [size_t], [weight_prec] becomes 2^63 - 1,
    and the assertion, evaluated modulo 2^64 as well, passes.  The accepted
    configuration violates the bit budget
    [dice_prec + 2*weight_prec + ceil_log2(nfields^2) <= bitlen]. *)
Theorem C1_budget_broken_by_underflow :
  exists cfg,
    EpilinkConfig_new fields_three [] (9 # 10) (7 # 10) false 16 = Ok cfg /\
    dice_prec cfg = 14 /\ weight_prec cfg = 2 ^ 63 - 1 /\
    ceil_log2 (nfields cfg ^ 2) = 4 /\ bitlen cfg = 16 /\
    ~ (dice_prec cfg + 2 * weight_prec cfg + ceil_log2 (nfields cfg ^ 2)
         <= bitlen cfg).
Proof.
  eexists. split; [vm_compute; reflexivity|].
  cbn [dice_prec weight_prec nfields bitlen].
  split; [reflexivity|]. split; [reflexivity|]. split; [reflexivity|].
  split; [reflexivity|].
  change (ceil_log2 (3 ^ 2)) with 4. lia.
Qed.

(** ** C2: the default planner *)

(** C2 (failing input).  The claimed formulas fail where the [size_t]
    subtractions underflow, and the assertion that should stop the
    construction wraps as well and passes:
    a bitmask of 32768 bits has [hw_bits] = 16 and gives [dice_prec] =
    2^64 - 1 instead of 16 - 1 - 16; three fields on a 16-bit machine give
    [weight_prec] = 2^63 - 1 instead of (16 - 4 - 14) / 2. *)
Lemma C2_planner_underflow :
  (exists cfg,
     EpilinkConfig_new fields_wide [] (9 # 10) (7 # 10) false 32 = Ok cfg /\
     hw_bits (max_bm_size_of fields_wide) = 16 /\
     dice_prec cfg <> 16 - 1 - hw_bits (max_bm_size_of fields_wide)) /\
  (exists cfg,
     EpilinkConfig_new fields_three [] (9 # 10) (7 # 10) false 16 = Ok cfg /\
     dice_prec cfg = 16 - 1 - hw_bits (max_bm_size_of fields_three) /\
     weight_prec cfg
       <> (bitlen cfg - ceil_log2 (nfields cfg ^ 2) - dice_prec cfg) / 2).
Proof.
  split.
  - eexists. split; [vm_compute; reflexivity|].
    split; [vm_compute; reflexivity|].
    vm_compute. discriminate.
  - eexists. split; [vm_compute; reflexivity|].
    split; [vm_compute; reflexivity|].
    vm_compute. discriminate.
Qed.

(** X20.  Where nothing underflows, the planner is the claimed one:
    for an accepted configuration whose widest DICE field
    has [hw_bits] at most 15 and whose [bitlen] leaves room for
    [ceil_log2(nfields^2) + dice_prec], the constructor has set
    [dice_prec = 16 - 1 - hw_bits(max_bm_size)] and
    [weight_prec = (bitlen - ceil_log2(nfields^2) - dice_prec) / 2], where
    [max_bm_size] is the largest bitsize among the DICE fields (0 when
    there is none) and [hw_bits(w) = ceil_log2(w + 1)], at least 1. *)
Theorem default_planner_in_range fs gs thr tthr mm bl cfg :
  EpilinkConfig_new fs gs thr tthr mm bl = Ok cfg ->
  Z.of_nat (size fs) < 2 ^ 32 ->
  hw_bits (max_bm_size_of fs) <= 15 ->
  ceil_log2 (Z.of_nat (size fs) ^ 2) + (16 - 1 - hw_bits (max_bm_size_of fs))
    <= bl < size_t_mod ->
  let max_bm_size := max_bm_size_of fs in
  (* max_bm_size is the largest bitsize among the DICE fields *)
  (forall k f, fs !! k = Some f -> comparator f = DICE ->
               bitsize f <= max_bm_size) /\
  (max_bm_size = 0 \/
   exists k f, fs !! k = Some f /\ comparator f = DICE /\
               bitsize f = max_bm_size) /\
  (* hw_bits is ceil_log2 of the successor, and 1 for an empty payload *)
  hw_size max_bm_size = hw_bits max_bm_size /\
  (1 < max_bm_size + 1 -> hw_bits max_bm_size = ceil_log2 (max_bm_size + 1)) /\
  (max_bm_size + 1 <= 1 -> hw_bits max_bm_size = 1) /\
  (* the two precisions *)
  nfields cfg = Z.of_nat (size fs) /\
  bitlen cfg = bl /\
  dice_prec cfg = 16 - 1 - hw_bits max_bm_size /\
  weight_prec cfg
    = (bitlen cfg - ceil_log2 (nfields cfg ^ 2) - dice_prec cfg) / 2.
Proof.
  intros Hnew Hn Hhw Hbl max_bm_size.
  destruct (EpilinkConfig_new_Ok _ _ _ _ _ _ _ Hnew) as (mw & _ & -> & _ & _).
  cbn [nfields bitlen dice_prec weight_prec].
  pose proof (max_bm_size_nonneg fs) as Hm. fold max_bm_size in Hm, Hhw, Hbl.
  pose proof (hw_bits_small _ Hm Hhw) as Hsmall.
  change (2 ^ 15) with 32768 in Hsmall.
  assert (Hhs : hw_size max_bm_size = hw_bits max_bm_size).
  { apply hw_size_hw_bits; [exact Hm|]. rewrite size_t_mod_value. lia. }
  split; [intros k f; apply max_bm_size_upper|].
  split; [apply max_bm_size_attained|].
  split; [exact Hhs|].
  split.
  { intros H1. unfold hw_bits, ceil_log2_min1.
    apply Z.ltb_lt in H1. rewrite H1. reflexivity. }
  split.
  { intros H1. unfold hw_bits, ceil_log2_min1.
    apply Z.ltb_ge in H1. rewrite H1. reflexivity. }
  split; [reflexivity|]. split; [reflexivity|].
  fold max_bm_size. rewrite Hhs.
  rewrite sz_mul_square by lia.
  assert (1 <= hw_bits max_bm_size) by apply ceil_log2_min1_ge_1.
  pose proof (ceil_log2_nonneg (Z.of_nat (size fs) ^ 2)).
  destruct (planner_no_underflow (hw_bits max_bm_size)
              (ceil_log2 (Z.of_nat (size fs) ^ 2)) bl) as (H1 & H2 & _);
    [lia|lia|lia|].
  split; [exact H1|exact H2].
Qed.

(** The four test fields with the exchange group {bm_1, bm_2} on a 32-bit
    machine: [dice_prec] = 11 and [weight_prec] = 8. *)
Lemma default_planner_in_range_witness :
  EpilinkConfig_new fields_test [["bm_1"; "bm_2"]] (9 # 10) (7 # 10) false 32
    = Ok cfg_test /\
  dice_prec cfg_test = 16 - 1 - hw_bits (max_bm_size_of fields_test) /\
  weight_prec cfg_test
    = (bitlen cfg_test - ceil_log2 (nfields cfg_test ^ 2) - dice_prec cfg_test) / 2.
Proof.
  assert (Hnew : EpilinkConfig_new fields_test [["bm_1"; "bm_2"]]
                   (9 # 10) (7 # 10) false 32 = Ok cfg_test)
    by (vm_compute; reflexivity).
  assert (Hn : Z.of_nat (size fields_test) < 2 ^ 32) by (vm_compute; reflexivity).
  assert (Hhw : hw_bits (max_bm_size_of fields_test) <= 15)
    by (vm_compute; discriminate).
  assert (Hbl : ceil_log2 (Z.of_nat (size fields_test) ^ 2)
                + (16 - 1 - hw_bits (max_bm_size_of fields_test))
                <= 32 < size_t_mod)
    by (split; vm_compute; [discriminate|reflexivity]).
  split; [exact Hnew|].
  pose proof (default_planner_in_range _ _ _ _ _ _ _ Hnew Hn Hhw Hbl) as H.
  cbv zeta in H. destruct H as (_ & _ & _ & _ & _ & _ & _ & Hd & Hw).
  split; [exact Hd|exact Hw].
Defined.

(** ** C3: the ideal precision *)

Lemma cfg_int1_constructed (thr tthr : Q) :
  EpilinkConfig_new fields_int1 [] thr tthr false 32 = Ok (cfg_int1 thr tthr).
Proof. vm_compute. reflexivity. Qed.

(** C3 (counterexample).  One field on a 32-bit machine: 32 bits are
    available, two are left over after the division by three, and only
    [weight_prec] is incremented: (10, 11), not (11, 11). *)
Lemma C3_two_leftover_bits :
  let c := cfg_int1 (9 # 10) (7 # 10) in
  let bits_av := bitlen c - ceil_log2 (nfields c ^ 2) in
  EpilinkConfig_new fields_int1 [] (9 # 10) (7 # 10) false 32 = Ok c /\
  bits_av mod 3 = 2 /\
  exists c', set_ideal_precision c = (Ok (), c') /\
             dice_prec c' = bits_av / 3 /\
             dice_prec c' <> bits_av / 3 + 1 /\
             weight_prec c' = bits_av / 3 + 1.
Proof.
  cbv zeta. split; [apply cfg_int1_constructed|].
  split; [reflexivity|]. eexists. split; [vm_compute; reflexivity|].
  cbn [dice_prec weight_prec]. split; [reflexivity|].
  split; [vm_compute; discriminate|reflexivity].
Qed.

(** C3 (amended).  [set_ideal_precision] divides the available bits
    [bits_av = bitlen - ceil_log2(nfields^2)] into thirds for [dice_prec]
    and [weight_prec]; one leftover bit goes to [dice_prec]; with two
    leftover bits only [weight_prec] is incremented, which uses both of
    them because [weight_prec] counts twice.  The call succeeds and the
    budget is met with equality. *)
Theorem C3_ideal_precision (c : EpilinkConfig) :
  is_size_t (bitlen c) -> 0 <= nfields c < 2 ^ 32 ->
  ceil_log2 (nfields c ^ 2) <= bitlen c ->
  let bits_av := bitlen c - ceil_log2 (nfields c ^ 2) in
  let third := bits_av / 3 in
  let dp := if bits_av mod 3 =? 1 then third + 1 else third in
  let wp := if bits_av mod 3 =? 2 then third + 1 else third in
  set_ideal_precision c = (Ok (), with_precisions c dp wp) /\
  dp + 2 * wp + ceil_log2 (nfields c ^ 2) = bitlen c.
Proof.
  intros Hbl Hn Hcl bits_av third dp wp.
  pose proof (ceil_log2_nonneg (nfields c ^ 2)) as Hcl0.
  unfold is_size_t in Hbl. rewrite size_t_mod_value in Hbl.
  assert (Hav : sz_sub (bitlen c) (ceil_log2 (sz_mul (nfields c) (nfields c)))
                = bits_av).
  { rewrite sz_mul_square by exact Hn. unfold sz_sub. apply wrap_small.
    in_size_t. }
  assert (Hthird : 0 <= third /\ 3 * third <= bits_av).
  { unfold third, bits_av. Z.div_mod_to_equations. lia. }
  assert (Hideal : ideal_precisions c = (dp, wp)).
  { unfold ideal_precisions. rewrite Hav. unfold sz_rem, sz_div.
    fold third. unfold dp, wp.
    destruct (bits_av mod 3 =? 1) eqn:E1.
    - apply Z.eqb_eq in E1. rewrite E1. simpl.
      unfold sz_add. rewrite wrap_small; [reflexivity|].
      in_size_t.
    - destruct (bits_av mod 3 =? 2) eqn:E2; [|reflexivity].
      unfold sz_add. rewrite wrap_small; [reflexivity|].
      in_size_t. }
  assert (Hsum : dp + 2 * wp + ceil_log2 (nfields c ^ 2) = bitlen c).
  { unfold dp, wp.
    destruct (bits_av mod 3 =? 1) eqn:E1; destruct (bits_av mod 3 =? 2) eqn:E2;
      rewrite ?Z.eqb_eq, ?Z.eqb_neq in *; unfold third, bits_av in *;
      Z.div_mod_to_equations; lia. }
  split; [|exact Hsum].
  unfold set_ideal_precision. rewrite Hideal. cbn [fst snd].
  unfold set_precisions.
  assert (Hb : budget_sum dp wp (nfields c) = bitlen c).
  { unfold budget_sum. rewrite sz_mul_square by exact Hn.
    unfold sz_add, sz_mul. rewrite wrap_wrap_add_r, wrap_wrap_add_l.
    rewrite Hsum. apply wrap_small. in_size_t. }
  rewrite Hb, Z.ltb_irrefl. reflexivity.
Qed.

(** One field on a 32-bit machine. *)
Lemma C3_ideal_precision_witness :
  set_ideal_precision (cfg_int1 (9 # 10) (7 # 10))
    = (Ok (), with_precisions (cfg_int1 (9 # 10) (7 # 10)) 10 11) /\
  10 + 2 * 11 + ceil_log2 (1 ^ 2) = 32.
Proof.
  apply (C3_ideal_precision (cfg_int1 (9 # 10) (7 # 10))).
  - vm_compute. split; [discriminate|reflexivity].
  - vm_compute. split; [discriminate|reflexivity].
  - vm_compute. discriminate.
Defined.

(** ** C4: explicit precisions *)

(** Where the sum does not leave [size_t], [set_precisions] is the guard
    the budget asks for. *)
Lemma set_precisions_no_overflow (a b : Z) (c : EpilinkConfig) :
  0 <= a -> 0 <= b -> 0 <= nfields c < 2 ^ 32 ->
  a + 2 * b + ceil_log2 (nfields c ^ 2) < size_t_mod ->
  (fst (set_precisions a b c) = Err (InvalidArgument PrecisionOverflow) <->
   a + 2 * b + ceil_log2 (nfields c ^ 2) > bitlen c) /\
  (is_Ok (fst (set_precisions a b c)) = false -> snd (set_precisions a b c) = c) /\
  (is_Ok (fst (set_precisions a b c)) = true ->
   dice_prec (snd (set_precisions a b c)) = a /\
   weight_prec (snd (set_precisions a b c)) = b) /\
  (is_Ok (fst (set_precisions a b c)) = true \/
   fst (set_precisions a b c) = Err (InvalidArgument PrecisionOverflow)).
Proof.
  intros Ha Hb Hn Hsum.
  pose proof (ceil_log2_nonneg (nfields c ^ 2)) as Hcl.
  assert (Hbs : budget_sum a b (nfields c)
                = a + 2 * b + ceil_log2 (nfields c ^ 2)).
  { unfold budget_sum. rewrite sz_mul_square by exact Hn.
    unfold sz_add, sz_mul. rewrite wrap_wrap_add_r, wrap_wrap_add_l.
    apply wrap_small. unfold is_size_t. lia. }
  unfold set_precisions. rewrite Hbs.
  destruct (bitlen c <? a + 2 * b + ceil_log2 (nfields c ^ 2)) eqn:E; cbn.
  - apply Z.ltb_lt in E. repeat split; try discriminate; auto; lia.
  - apply Z.ltb_ge in E. repeat split; try discriminate; auto; try lia.
Qed.

(** C4 (code defect).  On the one-field configuration of a 32-bit
    machine, [set_precisions(0, 2^63)] evaluates [2*weight_prec_] modulo
    2^64 to 0, the guard sees 0 <= 32, no exception is thrown and
    [weight_prec] = 2^63 is stored, although
    [0 + 2*2^63 + ceil_log2(1) > 32]. *)
Theorem C4_overflowing_request_accepted :
  let c := cfg_int1 (9 # 10) (7 # 10) in
  EpilinkConfig_new fields_int1 [] (9 # 10) (7 # 10) false 32 = Ok c /\
  set_precisions 0 (2 ^ 63) c = (Ok (), with_precisions c 0 (2 ^ 63)) /\
  weight_prec (snd (set_precisions 0 (2 ^ 63) c)) = 2 ^ 63 /\
  0 + 2 * 2 ^ 63 + ceil_log2 (nfields c ^ 2) > bitlen c.
Proof.
  cbv zeta. split; [apply cfg_int1_constructed|].
  split; [vm_compute; reflexivity|]. split; [reflexivity|].
  vm_compute. reflexivity.
Qed.

(** ** C5: the two comparison bits *)

Lemma Qtrunc_mono (x y : Q) : (x <= y)%Q -> Qtrunc x <= Qtrunc y.
Proof.
  intros Hxy. unfold Qtrunc.
  destruct (Qle_bool 0 x) eqn:Ex; destruct (Qle_bool 0 y) eqn:Ey.
  - apply Qfloor_resp_le. exact Hxy.
  - apply Qle_bool_iff in Ex.
    assert (Hy : (0 <= y)%Q) by (eapply Qle_trans; eassumption).
    apply Qle_bool_iff in Hy. congruence.
  - apply Qle_bool_iff in Ey.
    assert (Hx : ~ (0 <= x)%Q) by (rewrite <- Qle_bool_iff; congruence).
    apply Qnot_le_lt in Hx.
    assert (Qceiling x <= 0).
    { change 0 with (Qceiling (inject_Z 0)). apply Qceiling_resp_le.
      apply Qlt_le_weak. exact Hx. }
    assert (0 <= Qfloor y).
    { change 0 with (Qfloor (inject_Z 0)). apply Qfloor_resp_le. exact Ey. }
    lia.
  - apply Qceiling_resp_le. exact Hxy.
Qed.

Lemma int_shl1_nonneg (p s : Z) : int_shl1 p = Some s -> 0 < s.
Proof.
  unfold int_shl1. destruct ((0 <=? p) && (p <? 31)) eqn:E; [|discriminate].
  intros [= <-]. apply andb_prop in E as [E _]. apply Z.leb_le in E.
  apply Z.pow_pos_nonneg; lia.
Qed.

Lemma to_CircUnit_Some (BitLen : Z) (x : Q) (t : Z) :
  to_CircUnit BitLen x = Some t -> t = Qtrunc x /\ 0 <= t < 2 ^ BitLen.
Proof.
  unfold to_CircUnit.
  destruct ((0 <=? Qtrunc x) && (Qtrunc x <? 2 ^ BitLen)) eqn:E; [|discriminate].
  intros [= <-]. apply andb_prop in E as [E1 E2].
  apply Z.leb_le in E1. apply Z.ltb_lt in E2. auto.
Qed.

(** The constants are ordered like the thresholds. *)
Lemma set_constants_ordered (BitLen : Z) (cfg : EpilinkConfig) (T Tt : Z) :
  set_constants BitLen cfg = Some (T, Tt) ->
  (tthreshold cfg <= threshold cfg)%Q ->
  0 <= Tt <= T /\ T < 2 ^ BitLen.
Proof.
  unfold set_constants, threshold_constant. intros H Hle.
  destruct (int_shl1 (dice_prec cfg)) as [s|] eqn:Es; [|discriminate].
  destruct (to_CircUnit BitLen (threshold cfg * inject_Z s)) as [t1|] eqn:E1;
    [|discriminate].
  destruct (to_CircUnit BitLen (tthreshold cfg * inject_Z s)) as [t2|] eqn:E2;
    [|discriminate].
  injection H as <- <-.
  apply to_CircUnit_Some in E1 as [-> H1]. apply to_CircUnit_Some in E2 as [-> H2].
  split; [split; [lia|]|lia].
  apply Qtrunc_mono. apply Qmult_le_compat_r; [exact Hle|].
  apply int_shl1_nonneg in Es.
  change 0%Q with (inject_Z 0). rewrite <- Zle_Qle. lia.
Qed.

(** Outside the specified range the order of the two bits is lost.
    The thresholds are not validated: the constructor accepts
    [threshold] = 1/2 below [tthreshold] = 1, and it accepts a
    [threshold] above 1, for which [T * den] leaves the 32 bits of the
    arithmetic share.  The quotient 8372224 / 511 is the one of a single
    BINARY field of weight 1 with equal values on both sides
    ([weight_prec] = 9, [dice_prec] = 14: den = 2^9 - 1 and num = den *
    2^14).  In both runs [match] is set and [tmatch] is not. *)
Lemma unchecked_thresholds_lose_order :
  (EpilinkConfig_new fields_int1 [] (1 # 2) 1 false 32
     = Ok (cfg_int1 (1 # 2) 1) /\
   match_bits 32 (cfg_int1 (1 # 2) 1) 8372224 511 = Some (true, false)) /\
  (EpilinkConfig_new fields_int1 [] (8405025 # 16384) 1 false 32
     = Ok (cfg_int1 (8405025 # 16384) 1) /\
   (1 <= 8405025 # 16384)%Q /\
   match_bits 32 (cfg_int1 (8405025 # 16384) 1) 8372224 511
     = Some (true, false)).
Proof.
  split; [split; [apply cfg_int1_constructed|vm_compute; reflexivity]|].
  split; [apply cfg_int1_constructed|].
  split; [vm_compute; discriminate|vm_compute; reflexivity].
Qed.

(** When the configuration has [tthreshold <= threshold] and the product
    [T * den] fits the [BitLen] bits of an arithmetic share, the
    constants satisfy [Tt <= T] and a set [match] bit implies a set
    [tmatch] bit. *)
Lemma match_implies_tentative_no_wrap (BitLen : Z) (cfg : EpilinkConfig)
    (T Tt num den : Z) :
  set_constants BitLen cfg = Some (T, Tt) ->
  (tthreshold cfg <= threshold cfg)%Q ->
  0 <= den -> T * den < 2 ^ BitLen ->
  fst (threshold_bits BitLen T Tt num den) = true ->
  Tt <= T /\
  match_bits BitLen cfg num den = Some (true, true).
Proof.
  intros Hc Hle Hden Hfit Hm.
  destruct (set_constants_ordered _ _ _ _ Hc Hle) as [[H0 H1] H2].
  split; [exact H1|].
  unfold match_bits. rewrite Hc. f_equal.
  unfold threshold_bits, arith_mul in *. cbn [fst] in Hm.
  assert (Hs : 0 <= Tt * den <= T * den) by nia.
  rewrite (Z.mod_small (T * den)) in Hm |- * by nia.
  rewrite Hm. rewrite (Z.mod_small (Tt * den)) by lia.
  apply Z.ltb_lt in Hm.
  assert ((Tt * den <? num) = true) as -> by (apply Z.ltb_lt; lia).
  reflexivity.
Qed.

Lemma Qtrunc_inject_Z (z : Z) : Qtrunc (inject_Z z) = z.
Proof.
  unfold Qtrunc. destruct (Qle_bool 0 (inject_Z z));
    [apply Qfloor_Z|apply Qceiling_Z].
Qed.

(** Under the bit budget, with [threshold <= 1] and a denominator that is a
    sum of at most [nfields] rescaled weights below 2^weight_prec, the
    product [T * den] does fit. *)
Lemma threshold_product_fits (BitLen : Z) (cfg : EpilinkConfig) (T Tt den : Z) :
  set_constants BitLen cfg = Some (T, Tt) ->
  (threshold cfg <= 1)%Q ->
  0 <= weight_prec cfg -> 1 <= nfields cfg ->
  0 <= den <= nfields cfg * (2 ^ weight_prec cfg - 1) ->
  dice_prec cfg + 2 * weight_prec cfg + ceil_log2 (nfields cfg ^ 2) <= BitLen ->
  T * den < 2 ^ BitLen.
Proof.
  unfold set_constants, threshold_constant. intros H Hle Hwp Hn Hden Hbudget.
  destruct (int_shl1 (dice_prec cfg)) as [s|] eqn:Es; [|discriminate].
  destruct (to_CircUnit BitLen (threshold cfg * inject_Z s)) as [t1|] eqn:E1;
    [|discriminate].
  destruct (to_CircUnit BitLen (tthreshold cfg * inject_Z s)) as [t2|];
    [|discriminate].
  injection H as <- <-.
  apply to_CircUnit_Some in E1 as [-> H1].
  pose proof (int_shl1_nonneg _ _ Es) as Hs.
  assert (HT : Qtrunc (threshold cfg * inject_Z s) <= s).
  { rewrite <- (Qtrunc_inject_Z s) at 2. apply Qtrunc_mono.
    rewrite <- (Qmult_1_l (inject_Z s)) at 2.
    apply Qmult_le_compat_r; [exact Hle|].
    change 0%Q with (inject_Z 0). rewrite <- Zle_Qle. lia. }
  unfold int_shl1 in Es.
  destruct ((0 <=? dice_prec cfg) && (dice_prec cfg <? 31)) eqn:E; [|discriminate].
  injection Es as <-. apply andb_prop in E as [Ed _]. apply Z.leb_le in Ed.
  set (dp := dice_prec cfg) in *. set (wp := weight_prec cfg) in *.
  set (n := nfields cfg) in *. set (cl := ceil_log2 (n ^ 2)) in *.
  set (t := Qtrunc _) in *.
  assert (Hcl : n <= 2 ^ cl).
  { pose proof (ceil_log2_bound (n ^ 2)). fold cl in H. nia. }
  assert (Hcl0 : 0 <= cl) by apply ceil_log2_nonneg.
  assert (Hp : 2 ^ dp * 2 ^ cl * 2 ^ wp <= 2 ^ BitLen).
  { rewrite <- !Z.pow_add_r by lia. apply Z.pow_le_mono_r; lia. }
  assert (0 < 2 ^ dp) by (apply Z.pow_pos_nonneg; lia).
  assert (0 < 2 ^ wp) by (apply Z.pow_pos_nonneg; lia).
  assert (t * den <= 2 ^ dp * (n * (2 ^ wp - 1))) by nia.
  assert (2 ^ dp * (n * (2 ^ wp - 1)) < 2 ^ dp * 2 ^ cl * 2 ^ wp) by nia.
  lia.
Qed.

(** C5.  In every run within the specified range -- thresholds with
    [tthreshold <= threshold <= 1], precisions within the bit budget and
    the denominator of the winning quotient a sum of at most [nfields]
    rescaled weights below 2^weight_prec -- the constants satisfy
    [Tt <= T], the two products do not wrap, so that the bits are
    [T * den < num] and [Tt * den < num], and a set [match] bit implies
    a set [tmatch] bit. *)
Theorem C5_threshold_ordering (BitLen : Z) (cfg : EpilinkConfig)
    (T Tt num den : Z) :
  set_constants BitLen cfg = Some (T, Tt) ->
  (tthreshold cfg <= threshold cfg)%Q ->
  (threshold cfg <= 1)%Q ->
  0 <= weight_prec cfg -> 1 <= nfields cfg ->
  0 <= den <= nfields cfg * (2 ^ weight_prec cfg - 1) ->
  dice_prec cfg + 2 * weight_prec cfg + ceil_log2 (nfields cfg ^ 2) <= BitLen ->
  Tt <= T /\
  exists m t : bool,
    match_bits BitLen cfg num den = Some (m, t) /\
    (m = true <-> T * den < num) /\
    (t = true <-> Tt * den < num) /\
    (m = true -> t = true).
Proof.
  intros Hc Hle H1 Hwp Hn Hden Hbud.
  destruct (set_constants_ordered _ _ _ _ Hc Hle) as [[H0 HT] H2].
  pose proof (threshold_product_fits _ _ _ _ _ Hc H1 Hwp Hn Hden Hbud) as Hfit.
  split; [exact HT|].
  assert (Hs : 0 <= Tt * den <= T * den) by nia.
  unfold match_bits. rewrite Hc. unfold threshold_bits, arith_mul.
  rewrite (Z.mod_small (T * den)) by lia.
  rewrite (Z.mod_small (Tt * den)) by lia.
  eexists _, _. split; [reflexivity|].
  rewrite !Z.ltb_lt. split; [reflexivity|]. split; [reflexivity|]. lia.
Qed.

(** The thresholds 0.9 and 0.7 of test_sel.cpp on one BINARY field:
    T = 14745 and Tt = 11468. *)
Lemma C5_threshold_ordering_witness :
  11468 <= 14745 /\
  exists m t : bool,
    match_bits 32 (cfg_int1 (9 # 10) (7 # 10)) 8372224 511 = Some (m, t) /\
    (m = true <-> 14745 * 511 < 8372224) /\
    (t = true <-> 11468 * 511 < 8372224) /\
    (m = true -> t = true).
Proof.
  apply (C5_threshold_ordering 32 (cfg_int1 (9 # 10) (7 # 10))
           14745 11468 8372224 511).
  - vm_compute. reflexivity.
  - vm_compute. discriminate.
  - vm_compute. discriminate.
  - vm_compute. discriminate.
  - vm_compute. discriminate.
  - vm_compute. split; discriminate.
  - vm_compute. discriminate.
Defined.

(** ** C6: rescaling a weight *)





























(** ** C7 and C8: the engine facade *)

Lemma flags_consistent_new : flags_consistent SecureEpilinker_new.
Proof. unfold flags_consistent. simpl. discriminate. Qed.

Lemma flags_consistent_build nvals s :
  flags_consistent s -> flags_consistent (snd (build_circuit nvals s)).
Proof. unfold flags_consistent. simpl. reflexivity. Qed.

Lemma flags_consistent_setup s :
  flags_consistent s -> flags_consistent (snd (run_setup_phase s)).
Proof.
  unfold flags_consistent, run_setup_phase. intros H.
  destruct (is_built s) eqn:E; simpl; [intros _; reflexivity|].
  intros Hs. rewrite E. apply H. exact Hs.
Qed.

Lemma flags_consistent_reset s : flags_consistent (snd (reset s)).
Proof. unfold flags_consistent. simpl. discriminate. Qed.

(** What a successful pass of the opening guard means. *)
Lemma ensure_setup_Ok s s1 :
  ensure_setup s = (Ok (), s1) ->
  is_setup s1 = true /\ is_built s1 = is_built s /\
  (is_setup s = false -> is_built s = true).
Proof.
  unfold ensure_setup, run_setup_phase.
  destruct (is_setup s) eqn:E.
  - intros [= <-]. repeat split; try assumption; discriminate.
  - cbn [is_built is_setup warnings].
    destruct (is_built s) eqn:Eb; [|discriminate].
    intros [= <-]. simpl. repeat split; assumption.
Qed.

(** C7 (counterexample).  An empty database is not refused: on the fresh
    engine
    [build_circuit(0)] returns normally and the engine is Built. *)
Lemma C7_empty_database_accepted :
  fst (build_circuit 0 SecureEpilinker_new) = Ok () /\
  engine_state (snd (build_circuit 0 SecureEpilinker_new)) = Built.
Proof. split; reflexivity. Qed.

(** C7 (amended).  [build_circuit(nvals)] ignores [nvals]: for every
    [nvals], 0 included, it throws nothing and sets the built flag, leaving
    the setup flag alone; from Created the engine becomes Built, and
    [run_setup_phase] then succeeds.  The engine has no EmptyDatabase
    error. *)
Theorem C7_build_circuit_ignores_nvals (nvals : Z) (s : SecureEpilinker) :
  build_circuit nvals s = build_circuit 0 s /\
  fst (build_circuit nvals s) = Ok () /\
  is_built (snd (build_circuit nvals s)) = true /\
  is_setup (snd (build_circuit nvals s)) = is_setup s /\
  engine_state (snd (build_circuit nvals s)) <> Created /\
  engine_state (snd (build_circuit nvals SecureEpilinker_new)) = Built /\
  fst (run_setup_phase (snd (build_circuit nvals s))) = Ok ().
Proof.
  repeat split; try reflexivity.
  unfold engine_state. simpl. destruct (is_setup s); discriminate.
Qed.

Section RunProperties.
Variables ClientInput ServerInput Shares LinkResult : Type.
Variable set_client_input : ClientInput -> Result Shares.
Variable set_server_input : ServerInput -> Result Shares.
Variable exec_circuit : Shares -> Result LinkResult.

Lemma run_circuit_Ok sh s res s' :
  run_circuit Shares LinkResult exec_circuit sh s = (Ok res, s') ->
  is_setup s' = false /\ is_built s' = is_built s.
Proof.
  unfold run_circuit. destruct (exec_circuit sh); [|discriminate].
  intros [= _ <-]. simpl. auto.
Qed.

Lemma run_as_client_Ok input s res s' :
  run_as_client ClientInput Shares LinkResult set_client_input exec_circuit
    input s = (Ok res, s') ->
  is_setup s' = false /\ is_built s' = is_built s /\
  (is_setup s = false -> is_built s = true).
Proof.
  unfold run_as_client.
  destruct (ensure_setup s) as [[[]|e] s1] eqn:Eg; [|discriminate].
  apply ensure_setup_Ok in Eg as (_ & Hb & Himp).
  destruct (set_client_input input) as [sh|]; [|discriminate].
  intros H. apply run_circuit_Ok in H as [H1 H2].
  rewrite H2, Hb. auto.
Qed.

Lemma run_as_server_Ok input s res s' :
  run_as_server ServerInput Shares LinkResult set_server_input exec_circuit
    input s = (Ok res, s') ->
  is_setup s' = false /\ is_built s' = is_built s /\
  (is_setup s = false -> is_built s = true).
Proof.
  unfold run_as_server.
  destruct (ensure_setup s) as [[[]|e] s1] eqn:Eg; [|discriminate].
  apply ensure_setup_Ok in Eg as (_ & Hb & Himp).
  destruct (set_server_input input) as [sh|]; [|discriminate].
  intros H. apply run_circuit_Ok in H as [H1 H2].
  rewrite H2, Hb. auto.
Qed.

(** C8 (amended).  After a [run_as_client] or [run_as_server] call that
    completes, the setup flag is cleared and the built flag is left as
    it was, which is set: the engine is in the Built state, not Created.
    A following run needs no [build_circuit]: its opening guard runs
    the setup phase again, with a warning. *)
Theorem C8_run_returns_to_built (cin : ClientInput) (sin : ServerInput)
    (s s' : SecureEpilinker) (res : LinkResult) :
  flags_consistent s ->
  run_as_client ClientInput Shares LinkResult set_client_input exec_circuit
    cin s = (Ok res, s') \/
  run_as_server ServerInput Shares LinkResult set_server_input exec_circuit
    sin s = (Ok res, s') ->
  is_setup s' = false /\ is_built s' = true /\ is_built s' = is_built s /\
  engine_state s' = Built /\
  fst (ensure_setup s') = Ok () /\
  warnings (snd (ensure_setup s')) = warnings s' ++ [setup_warning].
Proof.
  intros Hc Hrun.
  assert (H : is_setup s' = false /\ is_built s' = is_built s /\
              (is_setup s = false -> is_built s = true)).
  { destruct Hrun as [Hrun|Hrun];
      [eapply run_as_client_Ok|eapply run_as_server_Ok]; exact Hrun. }
  destruct H as (Hs & Hb & Himp).
  assert (Hbuilt : is_built s = true).
  { destruct (is_setup s) eqn:E; [apply Hc; exact E|apply Himp; reflexivity]. }
  rewrite Hbuilt in Hb.
  unfold engine_state, ensure_setup, run_setup_phase.
  rewrite Hs. cbn [is_built is_setup warnings]. rewrite Hb, Hbuilt.
  repeat split; reflexivity.
Qed.
End RunProperties.

(** The engine after [build_circuit] and [run_setup_phase]. *)
Lemma setup_done_reached :
  snd (run_setup_phase (snd (build_circuit 1 SecureEpilinker_new)))
    = engine_setup_done.
Proof. reflexivity. Qed.

(** C8 (counterexample).  From SetupDone a completed run leaves the built
    flag set: the engine
    is Built, not Created, and a second run completes without
    [build_circuit]. *)
Lemma C8_built_flag_survives_run :
  let run := run_as_client unit unit unit (fun _ => Ok ()) (fun _ => Ok ()) () in
  engine_state engine_setup_done = SetupDone /\
  fst (run engine_setup_done) = Ok () /\
  is_built (snd (run engine_setup_done)) = true /\
  engine_state (snd (run engine_setup_done)) <> Created /\
  fst (run (snd (run engine_setup_done))) = Ok ().
Proof.
  cbv zeta. split; [reflexivity|]. split; [reflexivity|].
  split; [reflexivity|]. split; [vm_compute; discriminate|reflexivity].
Qed.

Lemma C8_run_returns_to_built_witness :
  let s' := mkEngine true false [] in
  is_setup s' = false /\ is_built s' = true /\
  is_built s' = is_built engine_setup_done /\
  engine_state s' = Built /\
  fst (ensure_setup s') = Ok () /\
  warnings (snd (ensure_setup s')) = warnings s' ++ [setup_warning].
Proof.
  apply (C8_run_returns_to_built unit unit unit unit
           (fun _ => Ok ()) (fun _ => Ok ()) (fun _ => Ok ())
           () () engine_setup_done (mkEngine true false []) ()).
  - unfold flags_consistent. reflexivity.
  - left. reflexivity.
Defined.

(** ** C9: the sanity checks of the exchange groups *)

Lemma check_group_Ok fs f0 g xg xg' :
  check_group fs f0 g xg = Ok xg' ->
  NoDup g /\ (forall n, n ∈ g -> n ∉ xg) /\ (forall n, n ∈ g -> like fs f0 n) /\
  xg' = list_to_set g ∪ xg.
Proof.
  revert xg. induction g as [|n g IH]; intros xg; simpl.
  - intros [= <-]. split; [constructor|]. split; [intros n H; inversion H|].
    split; [intros n H; inversion H|]. set_solver.
  - destruct (decide (n ∈ xg)) as [|Hn]; [discriminate|].
    destruct (fs !! n) as [f|] eqn:Ef; [|discriminate].
    destruct (decide (comparator f = comparator f0)) as [Hc|]; [|discriminate].
    destruct (decide (bitsize f = bitsize f0)) as [Hb|]; [|discriminate].
    intros H. apply IH in H as (Hnd & Hfresh & Hlike & ->).
    split.
    { constructor; [|exact Hnd]. intros Hin. apply (Hfresh n Hin). set_solver. }
    split.
    { intros m Hm. apply elem_of_cons in Hm as [->|Hm]; [exact Hn|].
      specialize (Hfresh m Hm). set_solver. }
    split.
    { intros m Hm. apply elem_of_cons in Hm as [->|Hm]; [|auto].
      exists f. auto. }
    set_solver.
Qed.

Lemma check_group_complete fs f0 g xg :
  NoDup g -> (forall n, n ∈ g -> n ∉ xg) -> (forall n, n ∈ g -> like fs f0 n) ->
  check_group fs f0 g xg = Ok (list_to_set g ∪ xg).
Proof.
  revert xg. induction g as [|n g IH]; intros xg Hnd Hfresh Hlike; simpl.
  - f_equal. set_solver.
  - apply NoDup_cons in Hnd as [Hn Hnd].
    destruct (decide (n ∈ xg)) as [Hin|_].
    { exfalso. apply (Hfresh n); [left|exact Hin]. }
    destruct (Hlike n) as (f & Ef & Hc & Hb); [left|]. rewrite Ef.
    destruct (decide (comparator f = comparator f0)); [|contradiction].
    destruct (decide (bitsize f = bitsize f0)); [|contradiction].
    rewrite IH.
    + f_equal. set_solver.
    + exact Hnd.
    + intros m Hm Hin. apply elem_of_union in Hin as [Hin|Hin].
      * apply elem_of_singleton in Hin as ->. contradiction.
      * apply (Hfresh m); [right; exact Hm|exact Hin].
    + intros m Hm. apply Hlike. right. exact Hm.
Qed.

Lemma check_group_Err fs f0 g xg e :
  (forall n, n ∈ g -> is_Some (fs !! n)) ->
  check_group fs f0 g xg = Err e ->
  exists k, e = InvalidArgument k /\ k <> PrecisionOverflow.
Proof.
  revert xg. induction g as [|n g IH]; intros xg Hk; simpl; [discriminate|].
  destruct (decide (n ∈ xg)).
  { intros [= <-]. eexists. split; [reflexivity|discriminate]. }
  destruct (Hk n) as [f Ef]; [left|]. rewrite Ef.
  destruct (decide (comparator f = comparator f0)).
  - destruct (decide (bitsize f = bitsize f0)).
    + apply IH. intros m Hm. apply Hk. right. exact Hm.
    + intros [= <-]. eexists. split; [reflexivity|discriminate].
  - intros [= <-]. eexists. split; [reflexivity|discriminate].
Qed.

Lemma check_exchange_groups_Ok fs gs xg :
  check_exchange_groups fs gs xg = Ok () ->
  groups_known fs gs /\ NoDup (concat gs) /\
  (forall n, n ∈ concat gs -> n ∉ xg) /\
  same_comparator fs gs /\ same_bitsize fs gs.
Proof.
  revert xg. induction gs as [|g gs IH]; intros xg; simpl.
  - intros _. split; [intros g H; inversion H|]. split; [constructor|].
    split; [intros n H; inversion H|].
    split; intros g a b fa fb H; inversion H.
  - destruct g as [|first g'] eqn:Eg; [discriminate|]. rewrite <- Eg.
    destruct (fs !! first) as [f0|] eqn:E0; [|discriminate].
    destruct (check_group fs f0 g xg) as [xg1|] eqn:Ec; [|discriminate].
    intros H. apply IH in H as (Hk & Hnd & Hfresh & Hcmp & Hbs).
    apply check_group_Ok in Ec as (Hndg & Hfg & Hlike & ->).
    split.
    { intros g1 Hg1. apply elem_of_cons in Hg1 as [->|Hg1]; [|auto].
      split; [rewrite Eg; discriminate|].
      intros n Hn. destruct (Hlike n Hn) as (f & -> & _). eauto. }
    split.
    { apply NoDup_app. split; [exact Hndg|]. split; [|exact Hnd].
      intros n Hn Hin. specialize (Hfresh n Hin). set_solver. }
    split.
    { intros n Hn. apply elem_of_app in Hn as [Hn|Hn]; [auto|].
      specialize (Hfresh n Hn). set_solver. }
    split.
    + intros g1 a b fa fb Hg1 Ha Hb Efa Efb.
      apply elem_of_cons in Hg1 as [->|Hg1];
        [|exact (Hcmp g1 a b fa fb Hg1 Ha Hb Efa Efb)].
      destruct (Hlike a Ha) as (fa' & Ea & Hca & _).
      destruct (Hlike b Hb) as (fb' & Eb & Hcb & _). congruence.
    + intros g1 a b fa fb Hg1 Ha Hb Efa Efb.
      apply elem_of_cons in Hg1 as [->|Hg1];
        [|exact (Hbs g1 a b fa fb Hg1 Ha Hb Efa Efb)].
      destruct (Hlike a Ha) as (fa' & Ea & _ & Hba).
      destruct (Hlike b Hb) as (fb' & Eb & _ & Hbb). congruence.
Qed.

Lemma check_exchange_groups_complete fs gs xg :
  groups_known fs gs -> NoDup (concat gs) ->
  (forall n, n ∈ concat gs -> n ∉ xg) ->
  same_comparator fs gs -> same_bitsize fs gs ->
  check_exchange_groups fs gs xg = Ok ().
Proof.
  revert xg. induction gs as [|g gs IH]; intros xg Hk Hnd Hfresh Hcmp Hbs; simpl;
    [reflexivity|].
  destruct (Hk g) as [Hne Hkg]; [left|].
  destruct g as [|first g'] eqn:Eg; [contradiction|]. rewrite <- Eg in *.
  assert (Hfirst : first ∈ g) by (rewrite Eg; left).
  destruct (Hkg first Hfirst) as [f0 E0]. rewrite E0.
  simpl in Hnd. apply NoDup_app in Hnd as (Hndg & Hdisj & Hnd').
  rewrite check_group_complete.
  - apply IH.
    + intros g1 Hg1. apply Hk. right. exact Hg1.
    + exact Hnd'.
    + intros n Hn Hin. apply elem_of_union in Hin as [Hin|Hin].
      * apply elem_of_list_to_set in Hin. exact (Hdisj n Hin Hn).
      * apply (Hfresh n); [|exact Hin]. simpl. apply elem_of_app. right. exact Hn.
    + intros g1 a b fa fb Hg1. apply Hcmp. right. exact Hg1.
    + intros g1 a b fa fb Hg1. apply Hbs. right. exact Hg1.
  - exact Hndg.
  - intros n Hn. apply Hfresh. simpl. apply elem_of_app. left. exact Hn.
  - intros n Hn. destruct (Hkg n Hn) as [f Ef]. exists f.
    split; [exact Ef|]. split.
    + apply (Hcmp g n first); [left|exact Hn|exact Hfirst|exact Ef|exact E0].
    + apply (Hbs g n first); [left|exact Hn|exact Hfirst|exact Ef|exact E0].
Qed.

Lemma check_exchange_groups_Err fs gs xg e :
  groups_known fs gs ->
  check_exchange_groups fs gs xg = Err e ->
  exists k, e = InvalidArgument k /\ k <> PrecisionOverflow.
Proof.
  revert xg. induction gs as [|g gs IH]; intros xg Hk; simpl; [discriminate|].
  destruct (Hk g) as [Hne Hkg]; [left|].
  destruct g as [|first g'] eqn:Eg; [contradiction|]. rewrite <- Eg in *.
  destruct (Hkg first) as [f0 E0]; [rewrite Eg; left|]. rewrite E0.
  destruct (check_group fs f0 g xg) as [xg1|e1] eqn:Ec.
  - apply IH. intros g1 Hg1. apply Hk. right. exact Hg1.
  - intros [= <-]. eapply check_group_Err; eassumption.
Qed.

Lemma sel_max_element_nonempty (fs : gmap string ML_Field) :
  fs <> ∅ ->
  exists mw, sel_max_element (fun f : string * ML_Field => weight f.2)
                             (map_to_list fs) = Some mw.
Proof.
  intros Hne. destruct (map_to_list fs) as [|x xs] eqn:E.
  - apply map_to_list_empty_iff in E. contradiction.
  - eexists. reflexivity.
Qed.

(** Whatever the input, an accepted configuration has valid exchange
    groups and stores the fields and groups it was given: a violation of
    any of the three conditions makes the construction fail. *)
Lemma constructor_Ok_groups_valid fs gs thr tthr mm bl cfg :
  EpilinkConfig_new fs gs thr tthr mm bl = Ok cfg ->
  groups_known fs gs /\ groups_valid fs gs /\
  fields cfg = fs /\ exchange_groups cfg = gs.
Proof.
  intros H. apply EpilinkConfig_new_Ok in H as (mw & _ & -> & _ & Hc).
  apply check_exchange_groups_Ok in Hc as (Hk & Hnd & _ & Hcmp & Hbs).
  unfold groups_valid, groups_disjoint. auto.
Qed.

(** C9 (counterexample).  Three configurations that meet the three
    conditions and are not
    accepted: a group that names a field that is not configured
    ([fields.at] throws [std::out_of_range]); an empty group (the first
    element of an empty set is read); and a machine width of 0 (the
    assertion of line 69 fails). *)
Lemma C9_valid_groups_not_accepted :
  (groups_valid fields_int1 [["nope"]] /\
   EpilinkConfig_new fields_int1 [["nope"]] (9 # 10) (7 # 10) false 32
     = Err OutOfRange) /\
  (groups_valid fields_int1 [[]] /\
   EpilinkConfig_new fields_int1 [[]] (9 # 10) (7 # 10) false 32
     = Err UndefinedBehaviour) /\
  (groups_valid fields_bm1 [] /\
   EpilinkConfig_new fields_bm1 [] (9 # 10) (7 # 10) false 0
     = Err AssertionFailed).
Proof.
  split; [|split].
  - split; [|vm_compute; reflexivity].
    split; [repeat constructor; set_solver|].
    split; intros g a b fa fb Hg Ha Hb Efa Efb;
      apply list_elem_of_singleton in Hg as ->;
      apply list_elem_of_singleton in Ha as ->; vm_compute in Efa; discriminate.
  - split; [|vm_compute; reflexivity].
    split; [constructor|].
    split; intros g a b fa fb Hg Ha Hb Efa Efb;
      apply list_elem_of_singleton in Hg as ->; inversion Ha.
  - split; [|vm_compute; reflexivity].
    split; [constructor|].
    split; intros g a b fa fb Hg; inversion Hg.
Qed.

(** C9 (amended).  For a non-empty field map, a machine width of at least
    one bit and exchange groups that are non-empty and name configured
    fields only: the constructor throws [std::invalid_argument] whenever a
    field appears in two groups or twice in a group, or two fields of one
    group differ in comparator or in bitsize; otherwise it succeeds and
    stores the fields and the groups unchanged. *)
Theorem C9_constructor_group_checks fs gs thr tthr mm bl :
  fs <> ∅ -> 1 <= bl < size_t_mod -> groups_known fs gs ->
  (groups_valid fs gs ->
   exists cfg, EpilinkConfig_new fs gs thr tthr mm bl = Ok cfg /\
               fields cfg = fs /\ exchange_groups cfg = gs) /\
  (~ groups_valid fs gs ->
   exists k, EpilinkConfig_new fs gs thr tthr mm bl = Err (InvalidArgument k) /\
             k <> PrecisionOverflow).
Proof.
  intros Hne Hbl Hk.
  destruct (sel_max_element_nonempty fs Hne) as [mw Hmw].
  unfold EpilinkConfig_new. rewrite Hmw.
  set (n := Z.of_nat (size fs)).
  set (dp := sz_sub (16 - 1) (hw_size (max_bm_size_of fs))).
  set (cl := ceil_log2 (sz_mul n n)).
  assert (Hassert : (budget_sum dp (sz_div (sz_sub (sz_sub bl cl) dp) 2) n <=? bl)
                    = true).
  { apply Z.leb_le. unfold budget_sum, sz_add, sz_mul, sz_div, sz_sub.
    apply planner_assertion_passes. exact Hbl. }
  rewrite Hassert. split.
  - intros (Hd & Hcmp & Hbs).
    rewrite (check_exchange_groups_complete fs gs ∅ Hk Hd); [| |exact Hcmp|exact Hbs].
    + eexists. split; [reflexivity|]. split; reflexivity.
    + intros m _. set_solver.
  - intros Hinv.
    destruct (check_exchange_groups fs gs ∅) as [[]|e] eqn:Ec.
    + exfalso. apply Hinv.
      apply check_exchange_groups_Ok in Ec as (_ & Hnd & _ & Hcmp & Hbs).
      unfold groups_valid, groups_disjoint. auto.
    + destruct (check_exchange_groups_Err _ _ _ _ Hk Ec) as (k & -> & Hk').
      exists k. auto.
Qed.

Lemma groups_known_test : groups_known fields_test [["bm_1"; "bm_2"]].
Proof.
  intros g Hg. apply list_elem_of_singleton in Hg as ->.
  split; [discriminate|].
  intros m Hm. apply elem_of_cons in Hm as [->|Hm]; [vm_compute; eauto|].
  apply list_elem_of_singleton in Hm as ->. vm_compute. eauto.
Defined.

Lemma groups_valid_test : groups_valid fields_test [["bm_1"; "bm_2"]].
Proof.
  assert (H1 : fields_test !! "bm_1" = Some (dice_field "bm_1" 2%Q 8))
    by (vm_compute; reflexivity).
  assert (H2 : fields_test !! "bm_2" = Some (dice_field "bm_2" 4%Q 8))
    by (vm_compute; reflexivity).
  split.
  { unfold groups_disjoint. simpl. repeat constructor; set_solver. }
  split; intros g a b fa fb Hg Ha Hb Efa Efb;
    apply list_elem_of_singleton in Hg as ->;
    apply elem_of_cons in Ha as [->|Ha];
    try (apply list_elem_of_singleton in Ha as ->);
    apply elem_of_cons in Hb as [->|Hb];
    try (apply list_elem_of_singleton in Hb as ->);
    rewrite ?H1, ?H2 in Efa, Efb;
    injection Efa as <-; injection Efb as <-; reflexivity.
Defined.

(** The four test fields with the exchange group {bm_1, bm_2}. *)
Lemma C9_constructor_group_checks_witness :
  exists cfg,
    EpilinkConfig_new fields_test [["bm_1"; "bm_2"]] (9 # 10) (7 # 10) false 32
      = Ok cfg /\
    fields cfg = fields_test /\ exchange_groups cfg = [["bm_1"; "bm_2"]].
Proof.
  apply (C9_constructor_group_checks fields_test [["bm_1"; "bm_2"]]
           (9 # 10) (7 # 10) false 32).
  - intros H. apply (f_equal size) in H. vm_compute in H. discriminate.
  - vm_compute. split; [discriminate|reflexivity].
  - exact groups_known_test.
  - exact groups_valid_test.
Defined.

(** ** C10: the largest weight *)

Lemma fold_max_step_spec {A : Type} (op : A -> Q) (xs : list A) (a : Q) :
  let res := fold_left (max_step op) xs a in
  (a <= res)%Q /\ (forall x, x ∈ xs -> (op x <= res)%Q) /\
  (res = a \/ exists x, x ∈ xs /\ op x = res).
Proof.
  revert a. induction xs as [|y xs IH]; intros a; cbn zeta.
  - split; [apply Qle_refl|]. split; [intros x H; inversion H|]. left; reflexivity.
  - simpl. destruct (IH (max_step op a y)) as (H1 & H2 & H3). cbn zeta in *.
    assert (Ha : (a <= max_step op a y)%Q).
    { unfold max_step. destruct (Qlt_le_dec a (op y));
        [apply Qlt_le_weak; assumption|apply Qle_refl]. }
    assert (Hy : (op y <= max_step op a y)%Q).
    { unfold max_step. destruct (Qlt_le_dec a (op y));
        [apply Qle_refl|assumption]. }
    split; [eapply Qle_trans; eassumption|].
    split.
    + intros x Hx. apply elem_of_cons in Hx as [->|Hx]; [|auto].
      eapply Qle_trans; eassumption.
    + destruct H3 as [H3|(x & Hx & H3)].
      * rewrite H3. unfold max_step. destruct (Qlt_le_dec a (op y)).
        -- right. exists y. split; [left|reflexivity].
        -- left. reflexivity.
      * right. exists x. split; [right; exact Hx|exact H3].
Qed.

Lemma sel_max_element_spec {A : Type} (op : A -> Q) (c : list A) (m : Q) :
  sel_max_element op c = Some m ->
  (forall x, x ∈ c -> (op x <= m)%Q) /\ (exists x, x ∈ c /\ op x = m).
Proof.
  destruct c as [|x xs]; [discriminate|]. simpl. intros [= <-].
  destruct (fold_max_step_spec op xs (op x)) as (H1 & H2 & H3). cbn zeta in *.
  split.
  - intros y Hy. apply elem_of_cons in Hy as [->|Hy]; auto.
  - destruct H3 as [H3|(y & Hy & H3)].
    + exists x. split; [left|symmetry; exact H3].
    + exists y. split; [right; exact Hy|exact H3].
Qed.

Lemma field_weight_r_Ok rescale avg cfg l r z :
  field_weight_r rescale avg cfg l r = Ok z ->
  exists fl fr, fields cfg !! l = Some fl /\ fields cfg !! r = Some fr /\
    z = rescale (avg (weight fl) (weight fr)) (weight_prec cfg) (max_weight cfg).
Proof.
  unfold field_weight_r.
  destruct (fields cfg !! l) as [fl|]; [|discriminate].
  destruct (fields cfg !! r) as [fr|]; [|discriminate].
  destruct (decide (comparator fl = comparator fr)); [|discriminate].
  destruct (decide (bitsize fl = bitsize fr)); [|discriminate].
  intros [= <-]. eauto.
Qed.

(** C10.  For every non-empty field map the constructor sets [max_weight]
    to the largest weight of the configured fields; [set_precisions] and
    [set_ideal_precision] leave it as it is, whether they throw or not;
    and it is the third argument, the divisor, of the [rescale_weight]
    call of [field_weight], the only one of the circuit builder. *)
Theorem C10_max_weight fs gs thr tthr mm bl cfg :
  fs <> ∅ ->
  EpilinkConfig_new fs gs thr tthr mm bl = Ok cfg ->
  (forall k f, fs !! k = Some f -> (weight f <= max_weight cfg)%Q) /\
  (exists k f, fs !! k = Some f /\ weight f = max_weight cfg) /\
  (forall a b, max_weight (snd (set_precisions a b cfg)) = max_weight cfg) /\
  max_weight (snd (set_ideal_precision cfg)) = max_weight cfg /\
  (forall rescale avg l r z,
     field_weight_r rescale avg cfg l r = Ok z ->
     exists fl fr, fs !! l = Some fl /\ fs !! r = Some fr /\
       z = rescale (avg (weight fl) (weight fr)) (weight_prec cfg)
                   (max_weight cfg)).
Proof.
  intros _ Hnew.
  destruct (EpilinkConfig_new_Ok _ _ _ _ _ _ _ Hnew) as (mw & Hmw & -> & _ & _).
  apply sel_max_element_spec in Hmw as [Hub ([k f] & Hin & Heq)].
  cbn [max_weight].
  split.
  { intros k' f' Hk'. apply (Hub (k', f')). apply elem_of_map_to_list. exact Hk'. }
  split.
  { exists k, f. split; [apply elem_of_map_to_list; exact Hin|exact Heq]. }
  assert (Hsp : forall a b c, max_weight (snd (set_precisions a b c)) = max_weight c).
  { intros a b c. unfold set_precisions.
    destruct (bitlen c <? budget_sum a b (nfields c)); reflexivity. }
  split; [intros a b; apply Hsp|].
  split; [unfold set_ideal_precision; apply Hsp|].
  intros rescale avg l r z Hz. apply field_weight_r_Ok in Hz. exact Hz.
Qed.

(** The four test fields: the largest weight is 4, the one of bm_2. *)
Lemma C10_max_weight_witness :
  (forall k f, fields_test !! k = Some f -> (weight f <= max_weight cfg_test)%Q) /\
  (exists k f, fields_test !! k = Some f /\ weight f = max_weight cfg_test) /\
  (forall a b, max_weight (snd (set_precisions a b cfg_test))
               = max_weight cfg_test) /\
  max_weight (snd (set_ideal_precision cfg_test)) = max_weight cfg_test /\
  (forall rescale avg l r z,
     field_weight_r rescale avg cfg_test l r = Ok z ->
     exists fl fr, fields_test !! l = Some fl /\ fields_test !! r = Some fr /\
       z = rescale (avg (weight fl) (weight fr)) (weight_prec cfg_test)
                   (max_weight cfg_test)).
Proof.
  apply (C10_max_weight fields_test [["bm_1"; "bm_2"]] (9 # 10) (7 # 10) false 32).
  - intros H. apply (f_equal size) in H. vm_compute in H. discriminate.
  - vm_compute. reflexivity.
Defined.

(** * The rest of the linkage code *)

(** ** Hamming weights *)

Lemma bit_count_range (b : bool) : 0 <= bit_count b <= 1.
Proof. destruct b; simpl; lia. Qed.

Lemma popcount_range (b : Byte.byte) : 0 <= popcount b <= 8.
Proof.
  unfold popcount.
  destruct (Byte.to_bits b) as (b0 & b1 & b2 & b3 & b4 & b5 & b6 & b7).
  pose proof (bit_count_range b0). pose proof (bit_count_range b1).
  pose proof (bit_count_range b2). pose proof (bit_count_range b3).
  pose proof (bit_count_range b4). pose proof (bit_count_range b5).
  pose proof (bit_count_range b6). pose proof (bit_count_range b7). lia.
Qed.

(** The counter of [hw] from any start value, as long as it stays below
    2^BitLen. *)
Lemma hw_fold_exact (BitLen : Z) (bm : list Byte.byte) (n0 : Z) :
  0 <= n0 -> n0 + 8 * Z.of_nat (length bm) < 2 ^ BitLen ->
  let r := fold_left (fun n b => (n + popcount b) mod 2 ^ BitLen) bm n0 in
  r = n0 + fold_right (fun b a => popcount b + a) 0 bm /\
  n0 <= r <= n0 + 8 * Z.of_nat (length bm).
Proof.
  revert n0. induction bm as [|b bm IH]; intros n0 H0 Hlt; cbn zeta.
  - simpl. lia.
  - cbn [fold_left fold_right length] in *.
    pose proof (popcount_range b) as Hb.
    rewrite Nat2Z.inj_succ in Hlt.
    rewrite (Z.mod_small (n0 + popcount b)) by lia.
    destruct (IH (n0 + popcount b)) as [H1 H2]; [lia|lia|].
    cbn zeta in H1, H2. rewrite Nat2Z.inj_succ. lia.
Qed.

Lemma hw_zero_bitmask (BitLen n : Z) : hw BitLen (zero_bitmask n) = 0.
Proof.
  unfold hw, zero_bitmask.
  induction (Z.to_nat n) as [|k IH]; simpl; [reflexivity|].
  change (popcount Byte.x00) with 0. rewrite Z.add_0_r, Zmod_0_l. exact IH.
Qed.

Lemma popcount_set_bits (b : Byte.byte) : popcount b = set_bits_of_byte b.
Proof. destruct b; reflexivity. Qed.

(** X1. As long as eight times the number of bytes fits the counter,
    [hw] is the number of set bits of the bitmask, counted bit by bit on
    the values of its bytes; so it is additive over concatenation, at
    most eight per byte, and 0 for the all-zero bitmask of an empty
    entry. *)
Theorem hw_counts_bits (BitLen : Z) (x y : list Byte.byte) :
  8 * Z.of_nat (length (x ++ y)) < 2 ^ BitLen ->
  hw BitLen x = set_bits x /\
  hw BitLen (x ++ y) = hw BitLen x + hw BitLen y /\
  0 <= hw BitLen x <= 8 * Z.of_nat (length x) /\
  (forall n, hw BitLen (zero_bitmask n) = 0).
Proof.
  intros Hlt. rewrite length_app, Nat2Z.inj_add in Hlt.
  split.
  { destruct (hw_fold_exact BitLen x 0) as [Hx _]; [lia|lia|].
    cbn zeta in Hx. unfold hw. rewrite Hx, Z.add_0_l. unfold set_bits.
    clear. induction x as [|b x IH]; simpl; [reflexivity|].
    rewrite IH, popcount_set_bits. reflexivity. }
  destruct (hw_fold_exact BitLen (x ++ y) 0) as [Hxy _];
    [lia|rewrite length_app, Nat2Z.inj_add; lia|].
  destruct (hw_fold_exact BitLen x 0) as [Hx Hxb]; [lia|lia|].
  destruct (hw_fold_exact BitLen y 0) as [Hy _]; [lia|lia|].
  cbn zeta in *. unfold hw. split; [|split].
  - rewrite Hxy, Hx, Hy, fold_right_app.
    assert (Hacc : forall l a, fold_right (fun b a => popcount b + a) a l
                   = a + fold_right (fun b a => popcount b + a) 0 l).
    { induction l as [|c l IH]; intros a; simpl; [lia|]. rewrite IH. lia. }
    rewrite Hacc. lia.
  - lia.
  - intros n. apply hw_zero_bitmask.
Qed.

Lemma hw_counts_bits_witness :
  hw 32 [Byte.x0f] = set_bits [Byte.x0f] /\
  hw 32 ([Byte.x0f] ++ [Byte.xff; Byte.x01])
    = hw 32 [Byte.x0f] + hw 32 [Byte.xff; Byte.x01] /\
  0 <= hw 32 [Byte.x0f] <= 8 * Z.of_nat (length [Byte.x0f]) /\
  (forall n, hw 32 (zero_bitmask n) = 0).
Proof.
  apply (hw_counts_bits 32 [Byte.x0f] [Byte.xff; Byte.x01]).
  vm_compute. reflexivity.
Defined.

Lemma hw_exact (BitLen : Z) (x : list Byte.byte) :
  8 * Z.of_nat (length x) < 2 ^ BitLen ->
  hw BitLen x = fold_right (fun b a => popcount b + a) 0 x.
Proof.
  intros H. destruct (hw_fold_exact BitLen x 0) as [Hx _]; [lia|lia|].
  cbn zeta in Hx. unfold hw. lia.
Qed.

(** ** More on the planner *)

Lemma cfg_test_constructed :
  EpilinkConfig_new fields_test [["bm_1"; "bm_2"]] (9 # 10) (7 # 10) false 32
    = Ok cfg_test.
Proof. vm_compute. reflexivity. Qed.

Lemma hw_bits_covers (w : Z) : 0 <= w -> w < 2 ^ hw_bits w.
Proof.
  intros H. unfold hw_bits, ceil_log2_min1. destruct (1 <? w + 1) eqn:E.
  - pose proof (ceil_log2_bound (w + 1)). lia.
  - apply Z.ltb_ge in E. change (2 ^ 1) with 2. lia.
Qed.

(** X3. The rationale of the default planner: for an accepted configuration
    (widest bitmask below 2^15 bits) both operands of the integer division
    of a DICE field fit its 16-bit inputs. *)
Theorem dice_operands_fit_16_bits fs gs thr tthr mm bl cfg k f hw_and hw_x hw_y :
  EpilinkConfig_new fs gs thr tthr mm bl = Ok cfg ->
  hw_bits (max_bm_size_of fs) <= 15 ->
  fs !! k = Some f -> comparator f = DICE ->
  0 <= hw_and <= bitsize f -> 0 <= hw_x <= bitsize f -> 0 <= hw_y <= bitsize f ->
  let ops := dice_operands (dice_prec cfg) hw_and hw_x hw_y in
  0 <= fst ops < 2 ^ 16 /\ 0 <= snd ops < 2 ^ 16.
Proof.
  intros Hnew Hhw Hk Hd Ha Hx Hy ops.
  destruct (EpilinkConfig_new_Ok _ _ _ _ _ _ _ Hnew) as (mw & _ & -> & _ & _).
  unfold ops, dice_operands. cbn [dice_prec fst snd].
  pose proof (max_bm_size_nonneg fs) as Hm.
  pose proof (max_bm_size_upper fs k f Hk Hd) as Hub.
  pose proof (hw_bits_small _ Hm Hhw) as Hsmall.
  change (2 ^ 15) with 32768 in Hsmall.
  rewrite hw_size_hw_bits by (rewrite ?size_t_mod_value; lia).
  pose proof (ceil_log2_min1_ge_1 (max_bm_size_of fs + 1)) as H1.
  fold (hw_bits (max_bm_size_of fs)) in H1.
  pose proof (hw_bits_covers _ Hm) as Hcov.
  set (h := hw_bits (max_bm_size_of fs)) in *.
  unfold sz_sub. rewrite wrap_small by in_size_t.
  rewrite Z.shiftl_mul_pow2 by lia.
  replace (16 - 1 - h + 1) with (16 - h) by lia.
  assert (Hpow : 2 ^ h * 2 ^ (16 - h) = 2 ^ 16)
    by (rewrite <- Z.pow_add_r by lia; f_equal; lia).
  assert (0 < 2 ^ (16 - h)) by (apply Z.pow_pos_nonneg; lia).
  assert (2 ^ h <= 2 ^ 15) by (apply Z.pow_le_mono_r; lia).
  change (2 ^ 15) with 32768 in *. change (2 ^ 16) with 65536 in *.
  split; [nia|lia].
Qed.

Lemma dice_operands_fit_16_bits_witness :
  let ops := dice_operands (dice_prec cfg_test) 4 4 8 in
  0 <= fst ops < 2 ^ 16 /\ 0 <= snd ops < 2 ^ 16.
Proof.
  apply (dice_operands_fit_16_bits fields_test [["bm_1"; "bm_2"]]
           (9 # 10) (7 # 10) false 32 cfg_test "bm_1"
           (dice_field "bm_1" 2%Q 8) 4 4 8).
  - exact cfg_test_constructed.
  - vm_compute. discriminate.
  - vm_compute. reflexivity.
  - reflexivity.
  - vm_compute. split; discriminate.
  - vm_compute. split; discriminate.
  - vm_compute. split; discriminate.
Defined.

Lemma default_planner_values fs gs thr tthr mm bl cfg :
  EpilinkConfig_new fs gs thr tthr mm bl = Ok cfg ->
  Z.of_nat (size fs) < 2 ^ 32 ->
  hw_bits (max_bm_size_of fs) <= 15 ->
  ceil_log2 (Z.of_nat (size fs) ^ 2) + (16 - 1 - hw_bits (max_bm_size_of fs))
    <= bl < size_t_mod ->
  nfields cfg = Z.of_nat (size fs) /\ bitlen cfg = bl /\
  dice_prec cfg = 16 - 1 - hw_bits (max_bm_size_of fs) /\
  weight_prec cfg
    = (bl - ceil_log2 (Z.of_nat (size fs) ^ 2) - dice_prec cfg) / 2.
Proof.
  intros Hnew Hn Hhw Hbl.
  destruct (EpilinkConfig_new_Ok _ _ _ _ _ _ _ Hnew) as (mw & _ & -> & _ & _).
  cbn [nfields bitlen dice_prec weight_prec].
  pose proof (max_bm_size_nonneg fs) as Hm.
  pose proof (hw_bits_small _ Hm Hhw) as Hsmall.
  change (2 ^ 15) with 32768 in Hsmall.
  rewrite hw_size_hw_bits by (rewrite ?size_t_mod_value; lia).
  rewrite sz_mul_square by lia.
  pose proof (ceil_log2_min1_ge_1 (max_bm_size_of fs + 1)) as H1.
  fold (hw_bits (max_bm_size_of fs)) in H1.
  pose proof (ceil_log2_nonneg (Z.of_nat (size fs) ^ 2)).
  destruct (planner_no_underflow (hw_bits (max_bm_size_of fs))
              (ceil_log2 (Z.of_nat (size fs) ^ 2)) bl) as (H2 & H3 & _);
    [lia|lia|lia|].
  repeat split; assumption.
Qed.

(** X4. The default planner wastes at most one bit of the budget, and its
    precisions are not negative. *)
Theorem constructor_budget_tight fs gs thr tthr mm bl cfg :
  EpilinkConfig_new fs gs thr tthr mm bl = Ok cfg ->
  Z.of_nat (size fs) < 2 ^ 32 ->
  hw_bits (max_bm_size_of fs) <= 15 ->
  ceil_log2 (Z.of_nat (size fs) ^ 2) + (16 - 1 - hw_bits (max_bm_size_of fs))
    <= bl < size_t_mod ->
  let used := dice_prec cfg + 2 * weight_prec cfg + ceil_log2 (nfields cfg ^ 2) in
  bitlen cfg - 1 <= used <= bitlen cfg /\
  0 <= dice_prec cfg <= 14 /\ 0 <= weight_prec cfg.
Proof.
  intros Hnew Hn Hhw Hbl used.
  pose proof (default_planner_values fs gs thr tthr mm bl cfg Hnew Hn Hhw Hbl)
    as (Hnf & Hb & Hd & Hw).
  pose proof (ceil_log2_min1_ge_1 (max_bm_size_of fs + 1)) as H1.
  fold (hw_bits (max_bm_size_of fs)) in H1.
  unfold used. rewrite Hw, Hd, Hb, Hnf.
  set (h := hw_bits (max_bm_size_of fs)) in *.
  set (cl := ceil_log2 (Z.of_nat (size fs) ^ 2)) in *.
  Z.div_mod_to_equations. lia.
Qed.

Lemma constructor_budget_tight_witness :
  let used := dice_prec cfg_test + 2 * weight_prec cfg_test
              + ceil_log2 (nfields cfg_test ^ 2) in
  bitlen cfg_test - 1 <= used <= bitlen cfg_test /\
  0 <= dice_prec cfg_test <= 14 /\ 0 <= weight_prec cfg_test.
Proof.
  apply (constructor_budget_tight fields_test [["bm_1"; "bm_2"]]
           (9 # 10) (7 # 10) false 32 cfg_test).
  - exact cfg_test_constructed.
  - vm_compute. reflexivity.
  - vm_compute. discriminate.
  - vm_compute. split; [discriminate|reflexivity].
Defined.

(** ** More on the setters *)

Lemma ideal_precisions_sum (c : EpilinkConfig) :
  is_size_t (bitlen c) ->
  budget_sum (ideal_precisions c).1 (ideal_precisions c).2 (nfields c) = bitlen c.
Proof.
  intros Hbl. unfold ideal_precisions, budget_sum.
  set (cl := ceil_log2 (sz_mul (nfields c) (nfields c))).
  unfold sz_rem, sz_div.
  set (av := sz_sub (bitlen c) cl).
  assert (Hav : is_size_t av) by apply wrap_is_size_t.
  assert (Hback : wrap (av + cl) = bitlen c).
  { unfold av, sz_sub. rewrite wrap_wrap_add_l.
    replace (bitlen c - cl + cl) with (bitlen c) by lia.
    apply wrap_small. exact Hbl. }
  unfold is_size_t in Hav. rewrite size_t_mod_value in Hav.
  assert (Hq : wrap (av / 3 + 1) = av / 3 + 1).
  { apply wrap_small. unfold is_size_t. rewrite size_t_mod_value.
    Z.div_mod_to_equations. lia. }
  destruct (av mod 3 =? 1) eqn:E1; [|destruct (av mod 3 =? 2) eqn:E2];
    cbn [fst snd]; unfold sz_add, sz_mul; rewrite ?Hq;
    rewrite wrap_wrap_add_r, wrap_wrap_add_l, <- Hback; f_equal;
    rewrite ?Z.eqb_eq, ?Z.eqb_neq in *; Z.div_mod_to_equations; lia.
Qed.

(** X5. [set_ideal_precision] never throws, whatever the number of fields and
    the machine width; the precisions it stores use the budget up,
    and calling it again changes nothing. *)
Theorem set_ideal_precision_total (c : EpilinkConfig) :
  is_size_t (bitlen c) ->
  let c' := snd (set_ideal_precision c) in
  fst (set_ideal_precision c) = Ok () /\
  budget_sum (dice_prec c') (weight_prec c') (nfields c') = bitlen c' /\
  set_ideal_precision c' = (Ok (), c').
Proof.
  intros Hbl c'.
  pose proof (ideal_precisions_sum c Hbl) as Hsum.
  assert (Hrun : set_ideal_precision c
                 = (Ok (), with_precisions c (ideal_precisions c).1
                                             (ideal_precisions c).2)).
  { unfold set_ideal_precision, set_precisions. rewrite Hsum, Z.ltb_irrefl.
    reflexivity. }
  unfold c'. rewrite Hrun. cbn [fst snd].
  split; [reflexivity|]. split; [exact Hsum|].
  set (d := with_precisions c _ _).
  assert (Hid : ideal_precisions d = ideal_precisions c) by reflexivity.
  unfold set_ideal_precision, set_precisions. rewrite Hid.
  change (bitlen d) with (bitlen c). change (nfields d) with (nfields c).
  rewrite Hsum, Z.ltb_irrefl. reflexivity.
Qed.

Lemma set_ideal_precision_total_witness :
  let c := cfg_int1 (9 # 10) (7 # 10) in
  let c' := snd (set_ideal_precision c) in
  fst (set_ideal_precision c) = Ok () /\
  budget_sum (dice_prec c') (weight_prec c') (nfields c') = bitlen c' /\
  set_ideal_precision c' = (Ok (), c').
Proof.
  apply (set_ideal_precision_total (cfg_int1 (9 # 10) (7 # 10))).
  vm_compute. split; [discriminate|reflexivity].
Defined.

(** X6. Whether a request is accepted depends on the machine width and the
    number of fields only, which no setter changes: after any earlier
    request, accepted or refused, [set_precisions a b] has the outcome it
    would have had at once, and an accepted request overwrites what was
    stored before. *)
Theorem set_precisions_last_wins (a b a' b' : Z) (c : EpilinkConfig) :
  let c1 := snd (set_precisions a' b' c) in
  fst (set_precisions a b c1) = fst (set_precisions a b c) /\
  (is_Ok (fst (set_precisions a b c)) = true ->
   snd (set_precisions a b c1) = snd (set_precisions a b c)) /\
  (is_Ok (fst (set_precisions a b c)) = false ->
   snd (set_precisions a b c1) = c1).
Proof.
  cbn zeta. unfold set_precisions.
  destruct (bitlen c <? budget_sum a' b' (nfields c)) eqn:E1; cbn [fst snd].
  - destruct (bitlen c <? budget_sum a b (nfields c)); cbn; auto.
    repeat split; auto; discriminate.
  - cbn [bitlen nfields with_precisions].
    destruct (bitlen c <? budget_sum a b (nfields c)); cbn; repeat split;
      auto; discriminate.
Qed.

(** X7. Storing again the precisions an accepted configuration already has is
    accepted and changes nothing. *)
Theorem set_precisions_of_planned fs gs thr tthr mm bl cfg :
  EpilinkConfig_new fs gs thr tthr mm bl = Ok cfg ->
  set_precisions (dice_prec cfg) (weight_prec cfg) cfg = (Ok (), cfg).
Proof.
  intros Hnew.
  destruct (EpilinkConfig_new_Ok _ _ _ _ _ _ _ Hnew) as (mw & _ & -> & Hb & _).
  unfold set_precisions. cbn [bitlen nfields dice_prec weight_prec].
  apply Z.leb_le in Hb. rewrite Z.ltb_antisym, Hb. reflexivity.
Qed.

Lemma set_precisions_of_planned_witness :
  set_precisions (dice_prec cfg_test) (weight_prec cfg_test) cfg_test
    = (Ok (), cfg_test).
Proof.
  apply (set_precisions_of_planned fields_test [["bm_1"; "bm_2"]]
           (9 # 10) (7 # 10) false 32 cfg_test).
  exact cfg_test_constructed.
Defined.

(** ** The bookkeeping of the circuit builder *)

Lemma erase_group_Ok (g : list string) (s : gset string) :
  NoDup g -> (forall i, i ∈ g -> i ∈ s) ->
  erase_group g s = Ok (s ∖ list_to_set g).
Proof.
  revert s. induction g as [|i g IH]; intros s Hnd Hin; simpl.
  - f_equal. set_solver.
  - apply NoDup_cons in Hnd as [Hi Hnd].
    destruct (decide (i ∈ s)) as [_|Hn]; [|exfalso; apply Hn, Hin; left].
    rewrite IH; [f_equal; set_solver|exact Hnd|].
    intros j Hj. apply elem_of_difference. split; [apply Hin; right; exact Hj|].
    intros Hji. apply elem_of_singleton in Hji as ->. contradiction.
Qed.

Lemma erase_groups_Ok (gs : list (list string)) (s : gset string) :
  NoDup (concat gs) -> (forall i, i ∈ concat gs -> i ∈ s) ->
  erase_groups gs s = Ok (s ∖ list_to_set (concat gs)).
Proof.
  revert s. induction gs as [|g gs IH]; intros s Hnd Hin; simpl.
  - f_equal. set_solver.
  - simpl in Hnd. apply NoDup_app in Hnd as (Hg & Hdisj & Hgs).
    rewrite erase_group_Ok; [|exact Hg|].
    + rewrite IH; [f_equal; set_solver|exact Hgs|].
      intros i Hi. apply elem_of_difference. split.
      * apply Hin. simpl. apply elem_of_app. right. exact Hi.
      * intros Hig. apply elem_of_list_to_set in Hig. exact (Hdisj i Hig Hi).
    + intros i Hi. apply Hin. simpl. apply elem_of_app. left. exact Hi.
Qed.

Lemma groups_known_concat fs gs i :
  groups_known fs gs -> i ∈ concat gs -> is_Some (fs !! i).
Proof.
  intros Hk Hi. apply list_elem_of_In, in_concat in Hi as (g & Hg & Hig).
  apply list_elem_of_In in Hg, Hig.
  destruct (Hk g Hg) as [_ H]. apply H. exact Hig.
Qed.

(** X8. For an accepted configuration the builder's own test of the exchange
    groups cannot fail: [no_x_group] ends as the fields outside all
    groups, and the fields of the groups and the remaining ones together
    are all the fields, each counted once. *)
Theorem builder_covers_each_field_once fs gs thr tthr mm bl cfg :
  EpilinkConfig_new fs gs thr tthr mm bl = Ok cfg ->
  let rest := dom (fields cfg) ∖ list_to_set (concat (exchange_groups cfg)) in
  remaining_fields cfg = Ok rest /\
  (forall i, i ∈ dom (fields cfg) <->
             (((i ∈ rest) /\ (i ∉ concat (exchange_groups cfg))) \/
              ((i ∉ rest) /\ (i ∈ concat (exchange_groups cfg))))) /\
  (length (concat (exchange_groups cfg)) + size rest = size (fields cfg))%nat.
Proof.
  intros Hnew rest.
  destruct (constructor_Ok_groups_valid _ _ _ _ _ _ _ Hnew)
    as (Hk & (Hd & _ & _) & Hf & Hg).
  unfold rest, remaining_fields. rewrite Hf, Hg. clear rest.
  assert (Hsub : forall i, i ∈ concat gs -> i ∈ dom fs).
  { intros i Hi. apply elem_of_dom. eapply groups_known_concat; eassumption. }
  split; [apply erase_groups_Ok; assumption|].
  split.
  - intros i. rewrite elem_of_difference, elem_of_list_to_set.
    destruct (decide (i ∈ concat gs)) as [Hi|Hi]; specialize (Hsub i); tauto.
  - assert (Hsz : size (list_to_set (concat gs) : gset string)
                  = length (concat gs)).
    { apply size_list_to_set. exact Hd. }
    rewrite <- Hsz, <- size_dom.
    assert (Hu : dom fs = list_to_set (concat gs) ∪
                          (dom fs ∖ list_to_set (concat gs))).
    { apply set_eq. intros i. rewrite elem_of_union, elem_of_difference,
        elem_of_list_to_set.
      destruct (decide (i ∈ concat gs)) as [Hi|Hi]; specialize (Hsub i); tauto. }
    rewrite <- size_union by set_solver. f_equal. symmetry. exact Hu.
Qed.

Lemma builder_covers_each_field_once_witness :
  let rest := dom (fields cfg_test)
              ∖ list_to_set (concat (exchange_groups cfg_test)) in
  remaining_fields cfg_test = Ok rest /\
  (forall i, i ∈ dom (fields cfg_test) <->
             (((i ∈ rest) /\ (i ∉ concat (exchange_groups cfg_test))) \/
              ((i ∉ rest) /\ (i ∈ concat (exchange_groups cfg_test))))) /\
  (length (concat (exchange_groups cfg_test)) + size rest
   = size (fields cfg_test))%nat.
Proof.
  apply (builder_covers_each_field_once fields_test [["bm_1"; "bm_2"]]
           (9 # 10) (7 # 10) false 32 cfg_test).
  exact cfg_test_constructed.
Defined.

(** X9. For an accepted configuration the two checks of [field_weight] pass
    for every pairing the builder asks for: a field with itself, and any
    two fields of one exchange group. *)
Theorem field_weight_checks_pass rescale avg fs gs thr tthr mm bl cfg :
  EpilinkConfig_new fs gs thr tthr mm bl = Ok cfg ->
  (forall i, i ∈ dom (fields cfg) ->
             is_Ok (field_weight_r rescale avg cfg i i) = true) /\
  (forall g ileft iright, g ∈ exchange_groups cfg -> ileft ∈ g -> iright ∈ g ->
             is_Ok (field_weight_r rescale avg cfg ileft iright) = true).
Proof.
  intros Hnew.
  destruct (constructor_Ok_groups_valid _ _ _ _ _ _ _ Hnew)
    as (Hk & (_ & Hc & Hb) & Hf & Hg).
  rewrite Hg. unfold field_weight_r. rewrite Hf. split.
  - intros i Hi. apply elem_of_dom in Hi as [f ->].
    destruct (decide (comparator f = comparator f)); [|contradiction].
    destruct (decide (bitsize f = bitsize f)); [reflexivity|contradiction].
  - intros g l r Hgin Hl Hr.
    destruct (Hk g Hgin) as [_ Hkn].
    destruct (Hkn l Hl) as [fl El]. destruct (Hkn r Hr) as [fr Er].
    rewrite El, Er.
    pose proof (Hc g l r fl fr Hgin Hl Hr El Er) as Hcmp.
    pose proof (Hb g l r fl fr Hgin Hl Hr El Er) as Hbs.
    destruct (decide (comparator fl = comparator fr)); [|contradiction].
    destruct (decide (bitsize fl = bitsize fr)); [reflexivity|contradiction].
Qed.

Lemma field_weight_checks_pass_witness :
  (forall i, i ∈ dom (fields cfg_test) ->
     is_Ok (field_weight_r (fun _ _ _ => 0) (fun a _ => a) cfg_test i i)
       = true) /\
  (forall g ileft iright,
     g ∈ exchange_groups cfg_test -> ileft ∈ g -> iright ∈ g ->
     is_Ok (field_weight_r (fun _ _ _ => 0) (fun a _ => a) cfg_test
              ileft iright) = true).
Proof.
  apply (field_weight_checks_pass (fun _ _ _ => 0) (fun a _ => a)
           fields_test [["bm_1"; "bm_2"]] (9 # 10) (7 # 10) false 32 cfg_test).
  exact cfg_test_constructed.
Defined.

(** ** Field weights and their sums *)

Lemma arith_sum_zero (BitLen : Z) (l : list Z) :
  Forall (fun x => x = 0) l -> arith_sum BitLen l = 0.
Proof.
  unfold arith_sum. induction 1 as [|x l -> _ IH]; simpl; [reflexivity|].
  rewrite Zmod_0_l. exact IH.
Qed.

Lemma field_weight_lane_empty (BitLen weight_r dc ds comp : Z) :
  dc = 0 \/ ds = 0 -> field_weight_lane BitLen weight_r dc ds comp = (0, 0).
Proof.
  intros H. unfold field_weight_lane, arith_mul.
  assert (Hd : (dc * ds) mod 2 ^ BitLen = 0).
  { destruct H as [-> | ->]; rewrite ?Z.mul_0_l, ?Z.mul_0_r; apply Zmod_0_l. }
  cbv zeta. rewrite Hd. rewrite !Z.mul_0_r. rewrite !Zmod_0_l. rewrite ?Z.mul_0_l, ?Zmod_0_l. reflexivity.
Qed.

(** X10. A row in which every pairing that is summed has delta 0 on one
    of its two sides has the quotient 0/0, and a quotient with numerator
    0 sets neither [match] nor [tmatch], whatever the thresholds.  A
    pairing is one call of [field_weight]: the client's delta of [ileft]
    and the server's delta of [iright], which inside an exchange group
    need not be the same field. *)
Theorem empty_side_never_matches (BitLen T Tt : Z) (xs : list (Z * Z * Z * Z)) :
  0 <= BitLen ->
  Forall (fun x => x.1.1.2 = 0 \/ x.1.2 = 0) xs ->
  sum_field_weights BitLen (field_weight_lanes BitLen xs) = (0, 0) /\
  (forall den, threshold_bits BitLen T Tt 0 den = (false, false)).
Proof.
  intros HB Hxs. split.
  - unfold sum_field_weights.
    assert (Hz : Forall (fun p => p = (0, 0)) (field_weight_lanes BitLen xs)).
    { unfold field_weight_lanes. apply Forall_fmap.
      eapply Forall_impl; [exact Hxs|].
      intros [[[w dc] ds] comp] H. simpl in *.
      apply field_weight_lane_empty. exact H. }
    f_equal; apply arith_sum_zero; apply Forall_fmap;
      (eapply Forall_impl; [exact Hz|]); intros p ->; reflexivity.
  - intros den. unfold threshold_bits, arith_mul.
    assert (Hm : 0 < 2 ^ BitLen) by (apply Z.pow_pos_nonneg; lia).
    pose proof (Z.mod_pos_bound (T * den) _ Hm).
    pose proof (Z.mod_pos_bound (Tt * den) _ Hm).
    f_equal; apply Z.ltb_ge; lia.
Qed.

Lemma empty_side_never_matches_witness :
  sum_field_weights 32 (field_weight_lanes 32 lanes_empty) = (0, 0) /\
  (forall den, threshold_bits 32 14745 11468 0 den = (false, false)).
Proof.
  apply (empty_side_never_matches 32 14745 11468 lanes_empty).
  - lia.
  - unfold lanes_empty. repeat (apply Forall_cons; split); simpl; auto.
Defined.

Lemma arith_sum_fold_exact (BitLen : Z) (l : list Z) (a0 : Z) :
  Forall (fun x => 0 <= x) l -> 0 <= a0 ->
  a0 + fold_right Z.add 0 l < 2 ^ BitLen ->
  fold_left (fun a x => (a + x) mod 2 ^ BitLen) l a0 = a0 + fold_right Z.add 0 l.
Proof.
  revert a0. induction l as [|x l IH]; intros a0 Hl H0 Hlt; simpl in *; [lia|].
  apply Forall_cons in Hl as [Hx Hl].
  assert (0 <= fold_right Z.add 0 l).
  { clear -Hl. induction Hl; simpl; lia. }
  rewrite (Z.mod_small (a0 + x)) by lia.
  rewrite IH; [lia|exact Hl|lia|lia].
Qed.

Lemma field_weight_lane_exact (BitLen dp wp : Z) (x : Z * Z * Z * Z) :
  0 <= dp -> 0 <= wp -> dp + wp <= BitLen -> lane_inputs_ok dp wp x ->
  let p := (let '(w, dc, ds, comp) := x in field_weight_lane BitLen w dc ds comp) in
  p = lane_products x /\
  0 <= snd p <= 2 ^ wp - 1 /\ 0 <= fst p <= 2 ^ dp * snd p.
Proof.
  intros Hdp Hwp Hle. destruct x as [[[w dc] ds] comp].
  intros (Hw & Hdc & Hds & Hcomp). cbn zeta.
  unfold field_weight_lane, arith_mul, lane_products. cbn [fst snd].
  assert (H2wp : 0 < 2 ^ wp) by (apply Z.pow_pos_nonneg; lia).
  assert (H2dp : 0 < 2 ^ dp) by (apply Z.pow_pos_nonneg; lia).
  assert (Hpw : 2 ^ wp <= 2 ^ BitLen) by (apply Z.pow_le_mono_r; lia).
  assert (Hpp : 2 ^ dp * 2 ^ wp <= 2 ^ BitLen).
  { rewrite <- Z.pow_add_r by lia. apply Z.pow_le_mono_r; lia. }
  assert (Hdelta : 0 <= dc * ds <= 1) by (destruct Hdc, Hds; subst; lia).
  assert (Hwd : 0 <= w * (dc * ds) <= 2 ^ wp - 1) by nia.
  rewrite Z.mul_mod_idemp_r by lia.
  rewrite (Z.mod_small (w * (dc * ds))) by lia.
  rewrite Z.mod_small by nia.
  split; [reflexivity|]. split; [lia|nia].
Qed.

Lemma sum_field_weights_bounds (BitLen dp wp n : Z) (xs : list (Z * Z * Z * Z)) :
  0 <= dp -> 0 <= wp -> 1 <= n ->
  dp + 2 * wp + ceil_log2 (n ^ 2) <= BitLen ->
  Z.of_nat (length xs) <= n -> Forall (lane_inputs_ok dp wp) xs ->
  let q := sum_field_weights BitLen (field_weight_lanes BitLen xs) in
  q = integer_sums xs /\
  0 <= snd q <= n * (2 ^ wp - 1) /\ 0 <= fst q <= 2 ^ dp * snd q.
Proof.
  intros Hdp Hwp Hn Hbud Hlen Hxs q.
  assert (Hcl : n <= 2 ^ ceil_log2 (n ^ 2)).
  { pose proof (ceil_log2_bound (n ^ 2)). nia. }
  pose proof (ceil_log2_nonneg (n ^ 2)) as Hcl0.
  set (cl := ceil_log2 (n ^ 2)) in *.
  assert (H2wp : 0 < 2 ^ wp) by (apply Z.pow_pos_nonneg; lia).
  assert (H2dp : 0 < 2 ^ dp) by (apply Z.pow_pos_nonneg; lia).
  assert (Hfit : 2 ^ dp * (2 ^ cl * 2 ^ wp) <= 2 ^ BitLen).
  { rewrite <- !Z.pow_add_r by lia. apply Z.pow_le_mono_r; lia. }
  (* the lanes are exact, and so are their sums over the integers *)
  assert (Hex : forall ys, Forall (lane_inputs_ok dp wp) ys ->
            let ps := field_weight_lanes BitLen ys in
            map fst ps = map (fun x => fst (lane_products x)) ys /\
            map snd ps = map (fun x => snd (lane_products x)) ys /\
            Forall (fun x => 0 <= x) (map fst ps) /\
            Forall (fun x => 0 <= x) (map snd ps) /\
            0 <= fold_right Z.add 0 (map snd ps)
              <= Z.of_nat (length ys) * (2 ^ wp - 1) /\
            0 <= fold_right Z.add 0 (map fst ps)
              <= 2 ^ dp * fold_right Z.add 0 (map snd ps)).
  { induction 1 as [|y ys Hy Hys IH]; cbn zeta.
    - simpl. repeat split; try constructor; lia.
    - cbn zeta in IH. destruct IH as (IE1 & IE2 & IH1 & IH2 & IH3 & IH4).
      pose proof (field_weight_lane_exact BitLen dp wp y Hdp Hwp ltac:(lia) Hy)
        as Hl. cbn zeta in Hl. destruct Hl as (Hle & Hl1 & Hl2).
      unfold field_weight_lanes in *. cbn [map fold_right length].
      destruct y as [[[w dc] ds] comp]. cbn [fst snd] in *.
      rewrite Nat2Z.inj_succ.
      split; [rewrite Hle, IE1; reflexivity|].
      split; [rewrite Hle, IE2; reflexivity|].
      repeat split; try (constructor; [lia|assumption]); nia. }
  destruct (Hex xs Hxs) as (E1 & E2 & H1 & H2 & H3 & H4). cbn zeta in *.
  unfold q, sum_field_weights, arith_sum, integer_sums. cbn [fst snd].
  set (ps := field_weight_lanes BitLen xs) in *.
  assert (Hs : fold_right Z.add 0 (map snd ps) <= n * (2 ^ wp - 1)) by nia.
  assert (Hn2 : n * (2 ^ wp - 1) < 2 ^ cl * 2 ^ wp) by nia.
  assert (Hc0 : 0 < 2 ^ cl) by (apply Z.pow_pos_nonneg; lia).
  assert (Hw2 : 2 ^ cl * 2 ^ wp <= 2 ^ BitLen) by nia.
  assert (Hf2 : 2 ^ dp * fold_right Z.add 0 (map snd ps)
                < 2 ^ dp * (2 ^ cl * 2 ^ wp)).
  { apply Z.mul_lt_mono_pos_l; lia. }
  rewrite (arith_sum_fold_exact BitLen (map snd ps) 0) by (try assumption; lia).
  rewrite (arith_sum_fold_exact BitLen (map fst ps) 0) by (try assumption; lia).
  rewrite !Z.add_0_l, <- E1, <- E2.
  split; [reflexivity|]. lia.
Qed.

(** X11. The reason for the bit budget, stated in the constructor: for
    two rows (or permutations) of at most [n] lanes each, the sums of
    the field weights and of the weights are the sums over the integers,
    nothing wraps; every quotient is at most 2^dice_prec; and a product
    [sum(fw) * sum(w)], as the comparison of two quotients forms it,
    stays below 2^BitLen. *)
Theorem cross_products_fit (BitLen dp wp n : Z) (xs ys : list (Z * Z * Z * Z)) :
  0 <= dp -> 0 <= wp -> 1 <= n ->
  dp + 2 * wp + ceil_log2 (n ^ 2) <= BitLen ->
  Z.of_nat (length xs) <= n -> Z.of_nat (length ys) <= n ->
  Forall (lane_inputs_ok dp wp) xs -> Forall (lane_inputs_ok dp wp) ys ->
  let p := sum_field_weights BitLen (field_weight_lanes BitLen xs) in
  let q := sum_field_weights BitLen (field_weight_lanes BitLen ys) in
  p = integer_sums xs /\ q = integer_sums ys /\
  0 <= fst p <= 2 ^ dp * snd p /\
  0 <= fst p * snd q < 2 ^ BitLen /\
  arith_mul BitLen (fst p) (snd q) = fst p * snd q.
Proof.
  intros Hdp Hwp Hn Hbud Hlx Hly Hxs Hys p q.
  destruct (sum_field_weights_bounds BitLen dp wp n xs) as (Ep & Hp1 & Hp2);
    try assumption.
  destruct (sum_field_weights_bounds BitLen dp wp n ys) as (Eq & Hq1 & Hq2);
    try assumption.
  fold p in Ep, Hp1, Hp2. fold q in Eq, Hq1, Hq2.
  assert (Hcl : n ^ 2 <= 2 ^ ceil_log2 (n ^ 2)) by apply ceil_log2_bound.
  pose proof (ceil_log2_nonneg (n ^ 2)) as Hcl0.
  set (cl := ceil_log2 (n ^ 2)) in *.
  assert (H2wp : 0 < 2 ^ wp) by (apply Z.pow_pos_nonneg; lia).
  assert (H2dp : 0 < 2 ^ dp) by (apply Z.pow_pos_nonneg; lia).
  assert (Hfit : 2 ^ dp * (2 ^ cl * (2 ^ wp * 2 ^ wp)) <= 2 ^ BitLen).
  { rewrite <- !Z.pow_add_r by lia. apply Z.pow_le_mono_r; lia. }
  assert (Hprod : 0 <= fst p * snd q < 2 ^ BitLen).
  { split; [nia|].
    set (M := n * (2 ^ wp - 1)) in *.
    assert (HM : 0 <= M) by (unfold M; nia).
    assert (H1 : fst p * snd q <= (2 ^ dp * M) * M).
    { apply Z.mul_le_mono_nonneg; try lia.
      transitivity (2 ^ dp * snd p); [lia|].
      apply Z.mul_le_mono_nonneg_l; lia. }
    assert (H2 : M * M < n ^ 2 * (2 ^ wp * 2 ^ wp)) by (unfold M; nia).
    assert (H3 : (2 ^ dp * M) * M < 2 ^ dp * (n ^ 2 * (2 ^ wp * 2 ^ wp))).
    { rewrite <- Z.mul_assoc. apply Z.mul_lt_mono_pos_l; lia. }
    assert (H4 : 2 ^ dp * (n ^ 2 * (2 ^ wp * 2 ^ wp))
                 <= 2 ^ dp * (2 ^ cl * (2 ^ wp * 2 ^ wp))).
    { apply Z.mul_le_mono_nonneg_l; [lia|].
      apply Z.mul_le_mono_nonneg_r; [nia|lia]. }
    lia. }
  split; [exact Ep|]. split; [exact Eq|].
  split; [exact Hp2|]. split; [exact Hprod|].
  unfold arith_mul. apply Z.mod_small. exact Hprod.
Qed.

Lemma cross_products_fit_witness :
  let p := sum_field_weights 32 (field_weight_lanes 32 lanes_full) in
  let q := sum_field_weights 32 (field_weight_lanes 32 lanes_half) in
  p = integer_sums lanes_full /\ q = integer_sums lanes_half /\
  0 <= fst p <= 2 ^ 11 * snd p /\
  0 <= fst p * snd q < 2 ^ 32 /\
  arith_mul 32 (fst p) (snd q) = fst p * snd q.
Proof.
  apply (cross_products_fit 32 11 8 4 lanes_full lanes_half).
  - lia.
  - lia.
  - lia.
  - vm_compute. discriminate.
  - vm_compute. discriminate.
  - vm_compute. discriminate.
  - unfold lanes_full, lane_inputs_ok.
    repeat (apply Forall_cons; split); try apply Forall_nil;
      change (2 ^ 8) with 256; change (2 ^ 11) with 2048; lia.
  - unfold lanes_half, lane_inputs_ok.
    repeat (apply Forall_cons; split); try apply Forall_nil;
      change (2 ^ 8) with 256; change (2 ^ 11) with 2048; lia.
Defined.

(** ** The constant index vector *)

(** X12. The width [ceil_log2_min1 nvals] given to every index constant holds
    each index below [nvals]: the vector has [nvals] lanes and lane [j]
    is [j], nothing is cut off. *)
Theorem const_idx_lanes (nvals : Z) :
  length (const_idx nvals) = Z.to_nat nvals /\
  (forall j : nat, (j < Z.to_nat nvals)%nat ->
     const_idx nvals !! j = Some (Z.of_nat j)).
Proof.
  unfold const_idx. split.
  - rewrite length_map, length_seq. reflexivity.
  - intros j Hj. rewrite list_lookup_fmap, lookup_seq_lt by exact Hj.
    cbn. f_equal. unfold bool_constant. apply Z.mod_small.
    split; [lia|].
    assert (Hn : Z.of_nat j < nvals) by lia.
    unfold ceil_log2_min1.
    destruct (Z.ltb_spec 1 nvals).
    + pose proof (ceil_log2_bound nvals). lia.
    + change (2 ^ 1) with 2. lia.
Qed.

(** ** Input shapes *)

Section InputProperties.
Variable size_error : Error.
Variable size_hw : Z.

Lemma check_vector_size_Ok {A : Type} (v : list A) (size : Z) :
  check_vector_size size_error v size = Ok () <-> Z.of_nat (length v) = size.
Proof.
  unfold check_vector_size. destruct (Z.eqb_spec (Z.of_nat (length v)) size).
  - tauto.
  - split; [discriminate|contradiction].
Qed.

Lemma check_vector_size_cases {A : Type} (v : list A) (size : Z) :
  check_vector_size size_error v size = Ok () \/
  check_vector_size size_error v size = Err size_error.
Proof. unfold check_vector_size. destruct (_ =? _); auto. Qed.

Lemma check_columns_Ok (rows : list (string * list (option (list Byte.byte))))
    (nvals : Z) :
  check_columns size_error rows nvals = Ok () <->
  Forall (fun row => Z.of_nat (length row.2) = nvals) rows.
Proof.
  induction rows as [|row rows IH]; simpl.
  - split; [constructor|reflexivity].
  - rewrite Forall_cons, <- IH, <- (check_vector_size_Ok row.2 nvals).
    destruct (check_vector_size_cases row.2 nvals) as [-> | ->].
    + tauto.
    + split; [discriminate|intros [? _]; discriminate].
Qed.

Lemma check_columns_cases (rows : list (string * list (option (list Byte.byte))))
    (nvals : Z) :
  check_columns size_error rows nvals = Ok () \/
  check_columns size_error rows nvals = Err size_error.
Proof.
  induction rows as [|row rows IH]; simpl; [auto|].
  destruct (check_vector_size_cases row.2 nvals) as [-> | ->]; auto.
Qed.

Lemma check_vectors_size_Ok {A : Type} (vs : list (list A)) (size : Z) :
  check_vectors_size size_error vs size = Ok () <->
  Forall (fun v => Z.of_nat (length v) = size) vs.
Proof.
  induction vs as [|v vs IH]; simpl.
  - split; [constructor|reflexivity].
  - rewrite Forall_cons, <- IH, <- (check_vector_size_Ok v size).
    destruct (check_vector_size_cases v size) as [-> | ->].
    + tauto.
    + split; [discriminate|intros [? _]; discriminate].
Qed.

Lemma check_vectors_size_cases {A : Type} (vs : list (list A)) (size : Z) :
  check_vectors_size size_error vs size = Ok () \/
  check_vectors_size size_error vs size = Err size_error.
Proof.
  induction vs as [|v vs IH]; simpl; [auto|].
  destruct (check_vector_size_cases v size) as [-> | ->]; auto.
Qed.

Lemma database_at_elem (db : list (string * list (option (list Byte.byte))))
    (i : string) (entries : list (option (list Byte.byte))) :
  database_at db i = Ok entries -> (i, entries) ∈ db.
Proof.
  induction db as [|[k col] db IH]; simpl; [discriminate|].
  destruct (decide (k = i)) as [-> | _].
  - intros [= ->]. left.
  - intros H. right. exact (IH H).
Qed.

Lemma database_at_missing (db : list (string * list (option (list Byte.byte))))
    (i : string) :
  i ∉ map fst db -> database_at db i = Err OutOfRange.
Proof.
  induction db as [|[k col] db IH]; simpl; [reflexivity|].
  intros H. destruct (decide (k = i)) as [-> | _].
  - exfalso. apply H. left.
  - apply IH. intros Hi. apply H. right. exact Hi.
Qed.

Lemma length_zero_bitmask (bytesize : Z) :
  0 <= bytesize -> Z.of_nat (length (zero_bitmask bytesize)) = bytesize.
Proof. intros H. unfold zero_bitmask. rewrite length_replicate. lia. Qed.

Lemma bitbytes_nonneg (bits : Z) : 0 <= bits -> 0 <= bitbytes bits.
Proof. intros H. unfold bitbytes. apply Z.div_pos; lia. Qed.

Lemma EpilinkServerInput_new_Ok
    (db : list (string * list (option (list Byte.byte))))
    (input : EpilinkServerInput) :
  EpilinkServerInput_new size_error db = Ok input ->
  db <> [] /\ database input = db /\
  Forall (fun row => Z.of_nat (length row.2) = server_nvals input) db.
Proof.
  unfold EpilinkServerInput_new. destruct db as [|[k col] rest]; [discriminate|].
  destruct (check_columns_cases ((k, col) :: rest) (Z.of_nat (length col)))
    as [E | E]; rewrite E; [|discriminate].
  intros [= <-]. simpl. repeat split; [discriminate|].
  apply check_columns_Ok. exact E.
Qed.

(** X13. The server input exists exactly for a non-empty database whose
    columns all have one length, and this length is its [nvals]; an empty
    database is not refused, its first column is read all the same. *)
Theorem server_input_columns
    (db : list (string * list (option (list Byte.byte))))
    (input : EpilinkServerInput) :
  (EpilinkServerInput_new size_error db = Ok input <->
   db <> [] /\ database input = db /\
   Forall (fun row => Z.of_nat (length row.2) = server_nvals input) db) /\
  EpilinkServerInput_new size_error [] = Err UndefinedBehaviour.
Proof.
  split; [|reflexivity]. split; [apply EpilinkServerInput_new_Ok|].
  intros (Hne & Hd & Hall). destruct db as [|[k col] rest]; [contradiction|].
  destruct input as [d n]. simpl in Hd, Hall. subst d.
  unfold EpilinkServerInput_new.
  assert (Hc : Z.of_nat (length col) = n).
  { apply Forall_cons in Hall as [Hc _]. exact Hc. }
  rewrite Hc. rewrite (proj2 (check_columns_Ok _ _) Hall). reflexivity.
Qed.

Lemma database_at_Err (db : list (string * list (option (list Byte.byte))))
    (i : string) (e : Error) :
  database_at db i = Err e -> e = OutOfRange.
Proof.
  induction db as [|[k col] db IH]; simpl.
  - intros [= <-]. reflexivity.
  - destruct (decide (k = i)); [discriminate|exact IH].
Qed.

Lemma for_each_field_Ok {A : Type} (body : string -> ML_Field -> Result A)
    (fs : list (string * ML_Field)) (r : list (string * A)) :
  for_each_field body fs = Ok r ->
  forall i f, (i, f) ∈ fs -> exists a, body i f = Ok a /\ (i, a) ∈ r.
Proof.
  revert r. induction fs as [|[j g] fs IH]; intros r H i f Hin.
  - inversion Hin.
  - simpl in H. destruct (body j g) as [a|e] eqn:Eb; [|discriminate].
    destruct (for_each_field body fs) as [r'|e] eqn:Er; [|discriminate].
    injection H as <-. apply elem_of_cons in Hin as [[= -> ->] | Hin].
    + exists a. split; [exact Eb|left].
    + destruct (IH r' eq_refl i f Hin) as (a' & Ha & Hr).
      exists a'. split; [exact Ha|right; exact Hr].
Qed.

Lemma for_each_field_is_Ok {A : Type} (body : string -> ML_Field -> Result A)
    (fs : list (string * ML_Field)) :
  is_Ok (for_each_field body fs) = true <->
  forall i f, (i, f) ∈ fs -> is_Ok (body i f) = true.
Proof.
  induction fs as [|[j g] fs IH]; simpl.
  - split; [intros _ i f Hin; inversion Hin|reflexivity].
  - split.
    + intros H i f Hin.
      destruct (body j g) as [a|e] eqn:Eb; [|discriminate].
      destruct (for_each_field body fs) as [r'|e]; [|discriminate].
      apply elem_of_cons in Hin as [[= -> ->] | Hin].
      * rewrite Eb. reflexivity.
      * apply IH; [reflexivity|exact Hin].
    + intros H. pose proof (H j g ltac:(left)) as Hj.
      destruct (body j g) as [a|e]; [|discriminate].
      assert (Hr : is_Ok (for_each_field body fs) = true).
      { apply IH. intros i f Hin. apply H. right. exact Hin. }
      destruct (for_each_field body fs); [reflexivity|discriminate].
Qed.

Lemma for_each_field_Err {A : Type} (body : string -> ML_Field -> Result A)
    (fs : list (string * ML_Field)) (e : Error) :
  for_each_field body fs = Err e ->
  exists i f, (i, f) ∈ fs /\ body i f = Err e.
Proof.
  induction fs as [|[j g] fs IH]; simpl; [discriminate|].
  destruct (body j g) as [a|e'] eqn:Eb.
  - destruct (for_each_field body fs) as [r'|e'']; [discriminate|].
    intros [= ->]. destruct (IH eq_refl) as (i & f & Hin & Hb).
    exists i, f. split; [right; exact Hin|exact Hb].
  - intros [= ->]. exists j, g. split; [left|exact Eb].
Qed.

Lemma elem_of_fields_in_order (cfg : EpilinkConfig) (i : string) (f : ML_Field) :
  (i, f) ∈ fields_in_order cfg <-> fields cfg !! i = Some f.
Proof.
  unfold fields_in_order. rewrite merge_sort_Permutation.
  apply elem_of_map_to_list.
Qed.

(** The loops visit the fields by ascending key. *)
Lemma fields_in_order_sorted (cfg : EpilinkConfig) :
  Sorted key_le (fields_in_order cfg).
Proof.
  unfold fields_in_order. apply Sorted_merge_sort.
  intros a b. apply String.leb_total.
Qed.

Lemma is_Ok_true {A : Type} (r : Result A) :
  is_Ok r = true <-> exists a, r = Ok a.
Proof.
  destruct r as [a|e]; simpl.
  - split; [eauto|reflexivity].
  - split; [discriminate|intros [a [=]]].
Qed.

Lemma client_share_of_field_Ok (BitLen nvals : Z) (input : EpilinkClientInput)
    (i : string) (f : ML_Field) (sh : ValueShare) :
  0 <= bitsize f ->
  client_share_of_field size_error size_hw BitLen nvals input i f = Ok sh <->
  exists e, record input !! i = Some e /\
    (forall v, e = Some v -> Z.of_nat (length v) = bitbytes (bitsize f)) /\
    sh = mkValueShare
           (mkShareArgs (repeat_vec (value_or_zero (bitbytes (bitsize f)) e) nvals)
                        (bitsize f) nvals)
           (match comparator f with
            | DICE => Some (mkShareArgs
                              (replicate (Z.to_nat nvals)
                                 (hw BitLen (value_or_zero (bitbytes (bitsize f)) e)))
                              size_hw nvals)
            | BINARY => None
            end)
           (mkShareArgs (replicate (Z.to_nat nvals) (has_value e)) BitLen nvals).
Proof.
  intros Hbits. unfold client_share_of_field.
  pose proof (bitbytes_nonneg _ Hbits) as Hb.
  destruct (record input !! i) as [e|].
  - cbn zeta.
    destruct (check_vector_size_cases (value_or_zero (bitbytes (bitsize f)) e)
                (bitbytes (bitsize f))) as [E | E]; rewrite E.
    + apply check_vector_size_Ok in E. split.
      * intros [= <-]. exists e. split; [reflexivity|]. split; [|reflexivity].
        intros v ->. exact E.
      * intros (e' & [= <-] & _ & ->). reflexivity.
    + split; [discriminate|]. intros (e' & [= <-] & Hlen & _). exfalso.
      assert (Hok : check_vector_size size_error
                      (value_or_zero (bitbytes (bitsize f)) e)
                      (bitbytes (bitsize f)) = Ok ()).
      { apply check_vector_size_Ok. destruct e as [v|]; simpl.
        - apply Hlen. reflexivity.
        - apply length_zero_bitmask. exact Hb. }
      rewrite Hok in E. discriminate.
  - split; [discriminate|]. intros (e & [=] & _).
Qed.

Lemma client_share_of_field_Err (BitLen nvals : Z) (input : EpilinkClientInput)
    (i : string) (f : ML_Field) (e : Error) :
  client_share_of_field size_error size_hw BitLen nvals input i f = Err e ->
  e = OutOfRange \/ e = size_error.
Proof.
  unfold client_share_of_field. destruct (record input !! i) as [en|].
  - cbn zeta.
    destruct (check_vector_size_cases (value_or_zero (bitbytes (bitsize f)) en)
                (bitbytes (bitsize f))) as [E | E]; rewrite E.
    + discriminate.
    + intros [= <-]. right. reflexivity.
  - intros [= <-]. left. reflexivity.
Qed.

(** X15. [set_real_client_input] for the stored [nvals]: it fails its
    opening assertion when [nvals] is 0; otherwise it succeeds exactly
    when every configured field has an entry in the record that is empty
    or has [bitbytes(bitsize)] bytes, and it throws nothing but the
    [out_of_range] of a missing field and the exception of the size
    check.  On success each field has got its shares: [nvals] copies of
    the value (all zero for an empty entry) at [bitsize] bits, for a
    bitmask field [nvals] copies of its Hamming weight at [size_hw] bits,
    and [nvals] copies of the flag at [BitLen] bits; with an empty entry
    every lane of the flag is 0, so that the field weight and the weight
    are 0 whatever the server side holds. *)
Theorem client_input_accepted (BitLen nvals : Z) (cfg : EpilinkConfig)
    (input : EpilinkClientInput) :
  (forall i f, fields cfg !! i = Some f -> 0 <= bitsize f) ->
  let r := set_real_client_input size_error size_hw BitLen nvals cfg input in
  (nvals <= 0 -> r = Err AssertionFailed) /\
  (0 < nvals ->
   (is_Ok r = true <->
    forall i f, fields cfg !! i = Some f ->
      exists e, record input !! i = Some e /\
        forall v, e = Some v -> Z.of_nat (length v) = bitbytes (bitsize f)) /\
   (forall e, r = Err e -> e = OutOfRange \/ e = size_error) /\
   (forall ins i f, r = Ok ins -> fields cfg !! i = Some f ->
      exists e sh, record input !! i = Some e /\ (i, sh) ∈ ins /\
        let value := value_or_zero (bitbytes (bitsize f)) e in
        share_val sh = mkShareArgs (repeat_vec value nvals) (bitsize f) nvals /\
        (comparator f = DICE ->
         share_hw sh = Some (mkShareArgs
                               (replicate (Z.to_nat nvals) (hw BitLen value))
                               size_hw nvals)) /\
        share_delta sh = mkShareArgs (replicate (Z.to_nat nvals) (has_value e))
                                     BitLen nvals /\
        (e = None ->
         hw BitLen value = 0 /\
         forall d weight_r ds comp, d ∈ share_data (share_delta sh) ->
           field_weight_lane BitLen weight_r d ds comp = (0, 0)))).
Proof.
  intros Hbits r. unfold r, set_real_client_input. split.
  - intros Hn. destruct (Z.ltb_spec 0 nvals); [lia|reflexivity].
  - intros Hn. destruct (Z.ltb_spec 0 nvals) as [_|Hc]; [|lia].
    split; [|split].
    + rewrite for_each_field_is_Ok. split.
      * intros H i f Hf. specialize (H i f (proj2 (elem_of_fields_in_order _ _ _) Hf)).
        apply is_Ok_true in H as [sh Hsh].
        apply client_share_of_field_Ok in Hsh as (e & He & Hlen & _);
          [|eapply Hbits; exact Hf].
        exists e. split; assumption.
      * intros H i f Hin. apply elem_of_fields_in_order in Hin.
        destruct (H i f Hin) as (e & He & Hlen).
        apply is_Ok_true. eexists.
        apply client_share_of_field_Ok; [eapply Hbits; exact Hin|].
        exists e. split; [exact He|]. split; [exact Hlen|reflexivity].
    + intros e He. apply for_each_field_Err in He as (i & f & _ & He).
      eapply client_share_of_field_Err. exact He.
    + intros ins i f Hins Hf.
      destruct (for_each_field_Ok _ _ _ Hins i f
                  (proj2 (elem_of_fields_in_order _ _ _) Hf)) as (sh & Hsh & Hin).
      apply client_share_of_field_Ok in Hsh as (e & He & Hlen & ->);
        [|eapply Hbits; exact Hf].
      exists e. eexists. split; [exact He|]. split; [exact Hin|].
      cbn zeta. cbn [share_val share_hw share_delta share_data].
      split; [reflexivity|]. split; [intros ->; reflexivity|].
      split; [reflexivity|].
      intros ->. cbn [value_or_zero has_value]. split; [apply hw_zero_bitmask|].
      intros d w ds comp Hd. apply elem_of_replicate in Hd as [-> _].
      apply field_weight_lane_empty. left. reflexivity.
Qed.

Lemma server_share_of_field_Ok (BitLen : Z) (input : EpilinkServerInput)
    (i : string) (f : ML_Field) (sh : ValueShare)
    (entries : list (option (list Byte.byte))) :
  0 <= bitsize f ->
  database_at (database input) i = Ok entries ->
  Z.of_nat (length entries) = server_nvals input ->
  server_share_of_field size_error size_hw BitLen (server_nvals input) input i f
    = Ok sh <->
  Forall (fun e => forall v, e = Some v ->
            Z.of_nat (length v) = bitbytes (bitsize f)) entries /\
  sh = mkValueShare
         (mkShareArgs
            (concat_vec (map (value_or_zero (bitbytes (bitsize f))) entries))
            (bitsize f) (server_nvals input))
         (match comparator f with
          | DICE => Some (mkShareArgs
                            (map (fun e => hw BitLen
                                    (value_or_zero (bitbytes (bitsize f)) e))
                                 entries)
                            size_hw (server_nvals input))
          | BINARY => None
          end)
         (mkShareArgs (map has_value entries) BitLen (server_nvals input)).
Proof.
  intros Hbits Hat Hlen. unfold server_share_of_field. rewrite Hat. cbn zeta.
  pose proof (bitbytes_nonneg _ Hbits) as Hb.
  set (bytesize := bitbytes (bitsize f)) in *.
  assert (Hgood : Forall (fun e => forall v, e = Some v ->
                            Z.of_nat (length v) = bytesize) entries <->
            Forall (fun v => Z.of_nat (length v) = bytesize)
              (map (value_or_zero bytesize) entries)).
  { rewrite Forall_fmap. apply Forall_iff. intros [v|]; simpl.
    - split; [intros H; exact (H v eq_refl)|intros H w [= <-]; exact H].
    - split; [intros _; apply length_zero_bitmask; exact Hb|discriminate]. }
  destruct (check_vectors_size_cases (map (value_or_zero bytesize) entries)
              bytesize) as [E | E]; rewrite E.
  - rewrite <- Hlen, Z.leb_refl, Nat2Z.id, firstn_all.
    apply check_vectors_size_Ok, Hgood in E.
    unfold hw_vec. rewrite map_map.
    split; [intros [= <-]; split; [exact E|reflexivity]|].
    intros [_ ->]. reflexivity.
  - split; [discriminate|]. intros [Hg _]. exfalso.
    apply Hgood, check_vectors_size_Ok in Hg. rewrite Hg in E. discriminate.
Qed.

(** X14. [set_real_server_input] on a constructed server input, for the
    stored [nvals] equal to the input's: it fails its opening assertion
    when the database has no record; otherwise it succeeds exactly when
    every configured field has a column whose present entries have
    [bitbytes(bitsize)] bytes, it throws nothing but the [out_of_range]
    of a missing column and the exception of the size check, and no
    column is indexed past its end.  On success each field has got its
    shares over all [nvals] entries of its column: the values one after
    the other (all zero for an absent entry) at [bitsize] bits, for a
    bitmask field their Hamming weights at [size_hw] bits, and the flags,
    1 exactly for the present entries, at [BitLen] bits. *)
Theorem server_input_accepted (BitLen : Z) (cfg : EpilinkConfig)
    (db : list (string * list (option (list Byte.byte))))
    (input : EpilinkServerInput) :
  EpilinkServerInput_new size_error db = Ok input ->
  (forall i f, fields cfg !! i = Some f -> 0 <= bitsize f) ->
  let nvals := server_nvals input in
  let r := set_real_server_input size_error size_hw BitLen nvals cfg input in
  (nvals = 0 -> r = Err AssertionFailed) /\
  (0 < nvals ->
   (is_Ok r = true <->
    forall i f, fields cfg !! i = Some f ->
      exists entries, database_at db i = Ok entries /\
        Forall (fun e => forall v, e = Some v ->
                  Z.of_nat (length v) = bitbytes (bitsize f)) entries) /\
   (forall e, r = Err e -> e = OutOfRange \/ e = size_error) /\
   (forall ins i f, r = Ok ins -> fields cfg !! i = Some f ->
      exists entries sh, database_at db i = Ok entries /\ (i, sh) ∈ ins /\
        Z.of_nat (length entries) = nvals /\
        let values := map (value_or_zero (bitbytes (bitsize f))) entries in
        share_val sh = mkShareArgs (concat_vec values) (bitsize f) nvals /\
        (comparator f = DICE ->
         share_hw sh = Some (mkShareArgs (map (hw BitLen) values) size_hw nvals)) /\
        share_delta sh = mkShareArgs (map has_value entries) BitLen nvals)).
Proof.
  intros Hnew Hbits nvals r.
  apply EpilinkServerInput_new_Ok in Hnew as (_ & Hdb & Hall).
  assert (Hcol : forall i entries, database_at db i = Ok entries ->
                   Z.of_nat (length entries) = nvals).
  { intros i entries Hat. apply database_at_elem in Hat.
    rewrite Forall_forall in Hall. exact (Hall _ Hat). }
  unfold r, set_real_server_input. split.
  - intros ->. reflexivity.
  - intros Hn. destruct (Z.ltb_spec 0 nvals) as [_|Hc]; [|lia].
    split; [|split].
    + rewrite for_each_field_is_Ok. split.
      * intros H i f Hf.
        specialize (H i f (proj2 (elem_of_fields_in_order _ _ _) Hf)).
        apply is_Ok_true in H as [sh Hsh].
        destruct (database_at db i) as [entries|e] eqn:Hat.
        -- exists entries. split; [reflexivity|].
           apply (server_share_of_field_Ok BitLen input i f sh entries) in Hsh
             as [Hg _]; [exact Hg|eapply Hbits; exact Hf|rewrite Hdb; exact Hat|].
           eapply Hcol. exact Hat.
        -- unfold server_share_of_field in Hsh. rewrite Hdb, Hat in Hsh.
           discriminate.
      * intros H i f Hin. apply elem_of_fields_in_order in Hin.
        destruct (H i f Hin) as (entries & Hat & Hg).
        apply is_Ok_true. eexists.
        apply (server_share_of_field_Ok BitLen input i f _ entries);
          [eapply Hbits; exact Hin|rewrite Hdb; exact Hat|
           eapply Hcol; exact Hat|].
        split; [exact Hg|reflexivity].
    + intros e He. apply for_each_field_Err in He as (i & f & _ & He).
      unfold server_share_of_field in He. rewrite Hdb in He.
      destruct (database_at db i) as [entries|e'] eqn:Hat.
      * cbn zeta in He.
        destruct (check_vectors_size_cases
                    (map (value_or_zero (bitbytes (bitsize f))) entries)
                    (bitbytes (bitsize f))) as [E | E]; rewrite E in He.
        -- fold nvals in He. rewrite <- (Hcol i entries Hat), Z.leb_refl in He.
           discriminate.
        -- injection He as <-. right. reflexivity.
      * injection He as <-. left. eapply database_at_Err. exact Hat.
    + intros ins i f Hins Hf.
      destruct (for_each_field_Ok _ _ _ Hins i f
                  (proj2 (elem_of_fields_in_order _ _ _) Hf)) as (sh & Hsh & Hin).
      destruct (database_at db i) as [entries|e] eqn:Hat.
      * apply (server_share_of_field_Ok BitLen input i f sh entries) in Hsh
          as [_ ->]; [|eapply Hbits; exact Hf|rewrite Hdb; exact Hat|
                       eapply Hcol; exact Hat].
        exists entries. eexists. split; [reflexivity|]. split; [exact Hin|].
        split; [eapply Hcol; exact Hat|].
        cbn zeta. cbn [share_val share_hw share_delta].
        split; [reflexivity|]. split; [|reflexivity].
        intros ->. rewrite map_map. reflexivity.
      * unfold server_share_of_field in Hsh. rewrite Hdb, Hat in Hsh.
        discriminate.
Qed.
End InputProperties.

Lemma cfg_bm2_constructed :
  EpilinkConfig_new fields_bm2 [] (9 # 10) (7 # 10) false 32 = Ok cfg_bm2.
Proof. vm_compute. reflexivity. Qed.

Lemma cfg_bm2_bitsize (i : string) (f : ML_Field) :
  fields cfg_bm2 !! i = Some f -> 0 <= bitsize f.
Proof.
  assert (Hall : map_Forall (fun _ f => 0 <= bitsize f) (fields cfg_bm2)).
  { apply map_Forall_to_list. vm_compute. repeat constructor; discriminate. }
  intros H. exact (Hall i f H).
Qed.

Lemma client_input_accepted_witness :
  let r := set_real_client_input RuntimeError 4 32 2 cfg_bm2 client_input_test in
  is_Ok r = true /\
  (is_Ok r = true <->
   forall i f, fields cfg_bm2 !! i = Some f ->
     exists e, record client_input_test !! i = Some e /\
       forall v, e = Some v -> Z.of_nat (length v) = bitbytes (bitsize f)) /\
  (forall e, r = Err e -> e = OutOfRange \/ e = RuntimeError).
Proof.
  pose proof (client_input_accepted RuntimeError 4 32 2 cfg_bm2
                client_input_test cfg_bm2_bitsize) as H.
  cbn zeta in H. destruct H as [_ H].
  destruct (H ltac:(lia)) as (H1 & H2 & _).
  split; [vm_compute; reflexivity|]. split; assumption.
Defined.

Lemma server_input_accepted_witness :
  let r := set_real_server_input RuntimeError 4 32
             (server_nvals server_input_test) cfg_bm2 server_input_test in
  is_Ok r = true /\
  (is_Ok r = true <->
   forall i f, fields cfg_bm2 !! i = Some f ->
     exists entries, database_at db_test i = Ok entries /\
       Forall (fun e => forall v, e = Some v ->
                 Z.of_nat (length v) = bitbytes (bitsize f)) entries) /\
  (forall e, r = Err e -> e = OutOfRange \/ e = RuntimeError).
Proof.
  pose proof (server_input_accepted RuntimeError 4 32 cfg_bm2 db_test
                server_input_test ltac:(vm_compute; reflexivity)
                cfg_bm2_bitsize) as H.
  cbn zeta in H. destruct H as [_ H].
  destruct (H ltac:(vm_compute; reflexivity)) as (H1 & H2 & _).
  split; [vm_compute; reflexivity|]. split; assumption.
Defined.

(** ** The engine under sequences of calls *)

Section EngineProperties.
Variables ClientInput ServerInput Shares LinkResult : Type.
Variable set_client_input : ClientInput -> Result Shares.
Variable set_server_input : ServerInput -> Result Shares.
Variable exec_circuit : Shares -> Result LinkResult.

Lemma flags_consistent_ensure_setup (s : SecureEpilinker) :
  flags_consistent s -> flags_consistent (snd (ensure_setup s)).
Proof.
  unfold flags_consistent, ensure_setup, run_setup_phase.
  destruct s as [[] [] w]; simpl; auto.
Qed.

Lemma flags_consistent_run_circuit (sh : Shares) (s : SecureEpilinker) :
  flags_consistent s ->
  flags_consistent (snd (run_circuit Shares LinkResult exec_circuit sh s)).
Proof.
  unfold flags_consistent, run_circuit.
  destruct (exec_circuit sh); simpl; [discriminate|auto].
Qed.

Lemma flags_consistent_after_call (s : SecureEpilinker)
    (c : Call ClientInput ServerInput) :
  flags_consistent s ->
  flags_consistent
    (after_call ClientInput ServerInput Shares LinkResult set_client_input
       set_server_input exec_circuit s c).
Proof.
  intros H. destruct c as [nvals| |input|input|]; simpl.
  - unfold flags_consistent. reflexivity.
  - unfold flags_consistent, run_setup_phase in *.
    destruct s as [[] [] w]; simpl in *; auto.
  - unfold run_as_client.
    pose proof (flags_consistent_ensure_setup s H) as H1.
    destruct (ensure_setup s) as [[u|e] s1]; simpl in *; [|exact H1].
    destruct (set_client_input input) as [sh|e]; [|exact H1].
    apply flags_consistent_run_circuit. exact H1.
  - unfold run_as_server.
    pose proof (flags_consistent_ensure_setup s H) as H1.
    destruct (ensure_setup s) as [[u|e] s1]; simpl in *; [|exact H1].
    destruct (set_server_input input) as [sh|e]; [|exact H1].
    apply flags_consistent_run_circuit. exact H1.
  - unfold flags_consistent. simpl. discriminate.
Qed.

Lemma warnings_after_call (s : SecureEpilinker)
    (c : Call ClientInput ServerInput) :
  let s' := after_call ClientInput ServerInput Shares LinkResult
              set_client_input set_server_input exec_circuit s c in
  warnings s' = warnings s \/
  (warnings s' = warnings s ++ [setup_warning] /\ is_setup s = false /\
   match c with
   | CallRunClient _ _ _ | CallRunServer _ _ _ => True
   | _ => False
   end).
Proof.
  destruct c as [nvals| |input|input|]; simpl.
  - left. reflexivity.
  - left. unfold run_setup_phase. destruct (is_built s); reflexivity.
  - unfold run_as_client, ensure_setup, run_setup_phase, run_circuit.
    destruct s as [[] [] w]; simpl;
      destruct (set_client_input input) as [sh|e]; simpl;
      try destruct (exec_circuit sh); simpl; auto.
  - unfold run_as_server, ensure_setup, run_setup_phase, run_circuit.
    destruct s as [[] [] w]; simpl;
      destruct (set_server_input input) as [sh|e]; simpl;
      try destruct (exec_circuit sh); simpl; auto.
  - left. reflexivity.
Qed.

(** X16. Whatever is called on a new engine, in whatever order and whether or
    not the calls throw, the setup flag is never set without the built
    flag, and the log holds nothing but implicit-setup warnings. *)
Theorem engine_calls_invariant (cs : list (Call ClientInput ServerInput)) :
  let s := after_calls ClientInput ServerInput Shares LinkResult
             set_client_input set_server_input exec_circuit
             SecureEpilinker_new cs in
  flags_consistent s /\ Forall (fun w => w = setup_warning) (warnings s) /\
  (length (warnings s) <= length cs)%nat.
Proof.
  unfold after_calls.
  assert (H : forall s0 (k : nat),
            flags_consistent s0 ->
            Forall (fun w => w = setup_warning) (warnings s0) ->
            (length (warnings s0) <= k)%nat ->
            let s := fold_left
                       (after_call ClientInput ServerInput Shares LinkResult
                          set_client_input set_server_input exec_circuit)
                       cs s0 in
            flags_consistent s /\
            Forall (fun w => w = setup_warning) (warnings s) /\
            (length (warnings s) <= k + length cs)%nat).
  { induction cs as [|c cs IH]; intros s0 k Hf Hw Hl; cbn zeta.
    - simpl. repeat split; try assumption. lia.
    - cbn [fold_left length].
      replace (k + S (length cs))%nat with (S k + length cs)%nat by lia.
      apply IH.
      + apply flags_consistent_after_call. exact Hf.
      + destruct (warnings_after_call s0 c) as [-> | (-> & _)];
          [exact Hw|].
        apply Forall_app. split; [exact Hw|]. repeat constructor.
      + destruct (warnings_after_call s0 c) as [-> | (-> & _)]; [lia|].
        rewrite length_app. simpl. lia. }
  apply (H SecureEpilinker_new 0%nat).
  - apply flags_consistent_new.
  - constructor.
  - simpl. lia.
Qed.

(** X17. On an engine that is not built (new, or reset), a run fails with the
    [runtime_error] of [run_setup_phase] before the input is looked at:
    the outcome does not depend on the input or on the circuit, the
    flags stay cleared and only the warning is logged. *)
Theorem run_on_unbuilt_engine (s : SecureEpilinker) (ci : ClientInput)
    (si : ServerInput) :
  flags_consistent s -> is_built s = false ->
  run_as_client ClientInput Shares LinkResult set_client_input exec_circuit
      ci s =
    (Err RuntimeError, mkEngine false false (warnings s ++ [setup_warning])) /\
  run_as_server ServerInput Shares LinkResult set_server_input exec_circuit
      si s =
    (Err RuntimeError, mkEngine false false (warnings s ++ [setup_warning])).
Proof.
  intros Hf Hb. unfold flags_consistent in Hf.
  destruct s as [b [] w]; simpl in *; subst b.
  - specialize (Hf eq_refl). discriminate.
  - split; reflexivity.
Qed.

(** X18. The implicit setup of a run is the explicit one plus the warning: on
    a built engine without setup, a run gives the result of
    [run_setup_phase] followed by the same run, and one more line in the
    log. *)
Theorem implicit_setup_is_explicit (s : SecureEpilinker) (si : ServerInput) :
  is_built s = true -> is_setup s = false ->
  let direct := run_as_server ServerInput Shares LinkResult set_server_input
                  exec_circuit si s in
  let staged := run_as_server ServerInput Shares LinkResult set_server_input
                  exec_circuit si (snd (run_setup_phase s)) in
  fst direct = fst staged /\
  is_built (snd direct) = is_built (snd staged) /\
  is_setup (snd direct) = is_setup (snd staged) /\
  warnings (snd direct) = warnings (snd staged) ++ [setup_warning] /\
  warnings (snd staged) = warnings s.
Proof.
  intros Hb Hs. destruct s as [b st w]; simpl in *; subst b st.
  unfold run_as_server, ensure_setup, run_setup_phase, run_circuit. simpl.
  destruct (set_server_input si) as [sh|e]; simpl; [|auto].
  destruct (exec_circuit sh); simpl; auto.
Qed.
End EngineProperties.

Lemma run_on_unbuilt_engine_witness :
  run_as_client unit unit unit (fun _ => Ok ()) (fun _ => Ok ()) ()
      SecureEpilinker_new =
    (Err RuntimeError, mkEngine false false ([] ++ [setup_warning])) /\
  run_as_server unit unit unit (fun _ => Ok ()) (fun _ => Ok ()) ()
      SecureEpilinker_new =
    (Err RuntimeError, mkEngine false false ([] ++ [setup_warning])).
Proof.
  apply (run_on_unbuilt_engine unit unit unit unit
           (fun _ => Ok ()) (fun _ => Ok ()) (fun _ => Ok ())
           SecureEpilinker_new () ()).
  - unfold flags_consistent. discriminate.
  - reflexivity.
Defined.

Lemma implicit_setup_is_explicit_witness :
  let s := mkEngine true false [] in
  let direct := run_as_server unit unit unit (fun _ => Ok ())
                  (fun _ => Ok ()) () s in
  let staged := run_as_server unit unit unit (fun _ => Ok ())
                  (fun _ => Ok ()) () (snd (run_setup_phase s)) in
  fst direct = fst staged /\
  is_built (snd direct) = is_built (snd staged) /\
  is_setup (snd direct) = is_setup (snd staged) /\
  warnings (snd direct) = warnings (snd staged) ++ [setup_warning] /\
  warnings (snd staged) = warnings s.
Proof.
  apply (implicit_setup_is_explicit unit unit unit
           (fun _ => Ok ()) (fun _ => Ok ()) (mkEngine true false []) ()).
  - reflexivity.
  - reflexivity.
Defined.

(** ** The server run *)

Section RunServerProperties.
Variable size_error : Error.
Variables Shares LinkResult : Type.
Variable set_server_input : EpilinkServerInput -> Result Shares.
Variable exec_circuit : Shares -> Result LinkResult.

(** X19. [LocalServer::run_server] on a non-empty database, from any state of
    the engine: the setup guard never fires and no warning is logged;
    when the run returns, the engine is back in Created with both flags
    cleared; when the input or the circuit throws, [reset] is skipped
    and the engine stays built. *)
Theorem run_server_outcomes
    (data : list (string * list (option (list Byte.byte))))
    (s : SecureEpilinker) :
  data <> [] ->
  let r := run_server size_error Shares LinkResult set_server_input
             exec_circuit data s in
  warnings (snd r) = warnings s /\
  (forall res, fst r = Ok res ->
     engine_state (snd r) = Created /\ is_setup (snd r) = false /\
     exists input sh, EpilinkServerInput_new size_error data = Ok input /\
       set_server_input input = Ok sh /\ exec_circuit sh = Ok res) /\
  (forall e, fst r = Err e ->
     is_built (snd r) = true /\ is_setup (snd r) = true /\
     (EpilinkServerInput_new size_error data = Err e \/
      exists input, EpilinkServerInput_new size_error data = Ok input /\
        (set_server_input input = Err e \/
         exists sh, set_server_input input = Ok sh /\
                    exec_circuit sh = Err e))).
Proof.
  intros Hd. destruct data as [|[k col] rest]; [contradiction|].
  unfold run_server. set (data := (k, col) :: rest).
  cbn [build_circuit snd run_setup_phase is_built].
  destruct (EpilinkServerInput_new size_error data) as [input|e0] eqn:En.
  - unfold run_as_server, ensure_setup. cbn [is_setup].
    destruct (set_server_input input) as [sh|e1] eqn:Es.
    + unfold run_circuit. destruct (exec_circuit sh) as [res|e2] eqn:Ee.
      * cbn. split; [reflexivity|]. split.
        -- intros res' [= <-]. repeat split. eauto.
        -- intros e [=].
      * cbn. split; [reflexivity|]. split.
        -- intros res' [=].
        -- intros e [= <-]. repeat split. right. eauto 6.
    + cbn. split; [reflexivity|]. split.
      * intros res' [=].
      * intros e [= <-]. repeat split. right. eauto.
  - cbn. split; [reflexivity|]. split.
    + intros res' [=].
    + intros e [= <-]. repeat split. left. reflexivity.
Qed.
End RunServerProperties.

Lemma run_server_outcomes_witness :
  let r := run_server RuntimeError unit unit (fun _ => Ok ())
             (fun _ => Ok ()) db_test SecureEpilinker_new in
  warnings (snd r) = [] /\
  (forall res, fst r = Ok res ->
     engine_state (snd r) = Created /\ is_setup (snd r) = false).
Proof.
  pose proof (run_server_outcomes RuntimeError unit unit (fun _ => Ok ())
                (fun _ => Ok ()) db_test SecureEpilinker_new
                ltac:(discriminate)) as H.
  cbn zeta in H. destruct H as (Hw & Hok & _). split; [exact Hw|].
  intros res Hr. destruct (Hok res Hr) as (Hc & Hs & _). split; assumption.
Defined.
